(** * pretzelai-extension: embedding cache, similarity ranking and
    streamed code replacement

    A shallow embedding of [packages/pretzelai-extension/src/index.ts].
    The plugin's [activate] closure keeps a module-level [embeddings]
    array, refreshes it from a JSON file once a second ([getEmbeddings],
    [createEmbeddings]), and drives two interactions on the active cell
    node: the [pretzelai:replace-code] command ([execute], [removeHandler],
    [handleSubmit]) and the fix-error button ([handleFixError]).

    JavaScript strings are sequences of UTF-16 code units, numbers are
    idealised as real numbers, promises are modelled by their settled
    outcome, and the DOM subtree the handlers touch is a list of children
    of the cell node. *)

From Stdlib Require Import Reals Lra Ascii String.
From stdpp Require Import gmap list strings sorting.

#[local] Set Warnings "-clear-no-such-hyp".

(** ** JavaScript values *)

(** A JS string: its UTF-16 code units. *)
Definition jsstring := list N.

(** ASCII literal to code units (used by the examples). *)
Definition js (s : string) : jsstring :=
  (λ a, Ascii.N_of_ascii a) <$> list_ascii_of_string s.

(** JS numbers. *)
Definition number := R.

(** The settled state of a promise: fulfilled with a value or rejected
    with an error (also the outcome of a [try] block). *)
Inductive JsResult (A : Type) :=
  | Fulfilled (a : A)
  | Rejected (error : jsstring).
Arguments Fulfilled {A} a.
Arguments Rejected {A} error.

(** ECMAScript WhiteSpace and LineTerminator code points, the characters
    [String.prototype.trim] strips. *)
Definition isWhiteSpace (c : N) : bool :=
  ((9 <=? c) && (c <=? 13) || (c =? 32) || (c =? 160) || (c =? 5760)
   || (8192 <=? c) && (c <=? 8202) || (c =? 8232) || (c =? 8233)
   || (c =? 8239) || (c =? 8287) || (c =? 12288) || (c =? 65279))%N.

Fixpoint trimStart (s : jsstring) : jsstring :=
  match s with
  | c :: s' => if isWhiteSpace c then trimStart s' else s
  | [] => []
  end.

Definition trimEnd (s : jsstring) : jsstring :=
  reverse (trimStart (reverse s)).

Definition trim (s : jsstring) : jsstring := trimEnd (trimStart s).

(** ** Data model *)

(** A notebook cell as the refresh reads it: [cell.id] and
    [cell.source]. The cell is a live shared object and a task reads
    [cell.source] again after each of its awaits: [cell_source] is the
    text when [createEmbeddings] is called (what the filter and a task
    before its first await read), [cell_source1] the text after the
    task's first await and [cell_source2] the text after its second. *)
Record Cell := {
  cell_id : jsstring;
  cell_source : jsstring;
  cell_source1 : jsstring;
  cell_source2 : jsstring
}.

(** The cell is not edited while its task runs. *)
Definition unedited (cell : Cell) : Prop :=
  cell_source1 cell = cell_source cell ∧ cell_source2 cell = cell_source cell.

#[global] Instance unedited_dec cell : Decision (unedited cell).
Proof. unfold unedited. apply _. Defined.

#[global] Instance Cell_eq_dec : EqDecision Cell.
Proof. solve_decision. Defined.

(** [Embedding] (imported from [./prompt]); the fields are those the
    object literals of [createEmbeddings] write:
    [{ id, source, hash, embedding }]. *)
Record Embedding := {
  e_id : jsstring;
  e_source : jsstring;
  e_hash : jsstring;
  e_embedding : list number
}.

(** [arr.findIndex(p)]: index of the first element satisfying [p], or
    [-1]. *)
Definition findIndex {A} (P : A → Prop) `{!∀ x, Decision (P x)}
    (l : list A) : Z :=
  match list_find P l with
  | Some (i, _) => Z.of_nat i
  | None => (-1)%Z
  end.

(** ** Embedding cache: [createEmbeddings]

    One call is modelled from its first statement to the [contents.save]
    it may issue, with no other [createEmbeddings] call reassigning
    [embeddings] while its tasks await. *)

(** What one per-cell async task of [createEmbeddings] did: the entry it
    pushed onto [newEmbeddingsArray] (if any), the texts it sent to
    [openaiEmbeddings], and what it wrote with [console.error]. *)
Record Task := {
  pushed : option Embedding;
  requested : list jsstring;
  logged : list jsstring
}.

(** Modelled from the spec: [isSetsEqual] of [./utils] is absent from the
    sources; the spec calls it the fingerprint-set equality check, so it
    is equality of the two [Set]s. *)
Definition isSetsEqual (a b : gset jsstring) : bool := bool_decide (a = b).

(** The outcome of one [createEmbeddings] call. *)
Record Refresh := {
  (** the module-level [embeddings] variable after the call *)
  r_embeddings : list Embedding;
  (** the local [newEmbeddingsArray] when [Promise.allSettled] resolves *)
  r_newEmbeddingsArray : list Embedding;
  (** texts sent to [openaiEmbeddings] *)
  r_requested : list jsstring;
  (** [console.error] lines *)
  r_logged : list jsstring;
  (** [contents.save(path, ...)], if issued: path and the array written *)
  r_saved : option (jsstring * list Embedding)
}.

Section Cache.

(** [calculateHash] of [./utils] (absent from the sources): the digest
    of a cell's text, a pure function. *)
Variable calculateHash : jsstring → jsstring.

(** [openaiEmbeddings(text, aiService, aiClient)] as it answers during
    one refresh: [response.data[0].embedding], or a rejection (a
    response without [data[0]] throws inside the same [try] and counts
    as one). *)
Variable openaiEmbeddings : jsstring → JsResult (list number).

(** The object literal pushed after a successful provider call:
    [source: cell.source] is read when the literal is built, after the
    task's second await. *)
Definition newEntry (cell : Cell) (hash : jsstring) (response : list number)
    : Embedding :=
  {| e_id := cell_id cell;
     e_source := cell_source2 cell;
     e_hash := hash;
     e_embedding := response |}.

(** The [try { ... } catch] around the provider call, for the [text]
    sent and the [hash] stored. *)
Definition recompute (cell : Cell) (text hash : jsstring) : Task :=
  match openaiEmbeddings text with
  | Fulfilled response =>
      {| pushed := Some (newEntry cell hash response);
         requested := [text];
         logged := [] |}
  | Rejected error =>
      {| pushed := None;
         requested := [text];
         logged := [js "Error generating embedding:" ++ error] |}
  end.

(** [embeddings[index]] for the index [findIndex] returns on the cell's
    id: the first entry with that id, if any. *)
Definition cached (embeddings : list Embedding) (cell : Cell)
    : option Embedding :=
  snd <$> list_find (λ e, e_id e = cell_id cell) embeddings.

(** The cell's text has to be embedded: the store has no entry for its
    id, or the entry's hash is not the digest of the text. *)
Definition stale (embeddings : list Embedding) (cell : Cell) : Prop :=
  match cached embeddings cell with
  | Some existing => calculateHash (cell_source cell) ≠ e_hash existing
  | None => True
  end.

#[global] Instance stale_dec embeddings cell :
  Decision (stale embeddings cell).
Proof. unfold stale. destruct (cached embeddings cell); apply _. Defined.

(** The body of the async arrow function mapped over the cells. With
    an entry for the id, the hash is taken before the first await and the
    text is sent after it; without one, the text is sent before the
    first await and the hash is taken after it. *)
Definition task (embeddings : list Embedding) (cell : Cell) : Task :=
  let index := findIndex (λ e, e_id e = cell_id cell) embeddings in
  if decide (index ≠ (-1)%Z) then
    let hash := calculateHash (cell_source cell) in
    match embeddings !! Z.to_nat index with
    | Some existing =>
        if decide (hash ≠ e_hash existing) then
          recompute cell (cell_source1 cell) hash
        else {| pushed := Some existing; requested := []; logged := [] |}
    | None => {| pushed := None; requested := []; logged := [] |}
    end
  else
    recompute cell (cell_source cell) (calculateHash (cell_source1 cell)).

(** The text a task sends when it asks the provider, and the hash it
    stores with the answer. *)
Definition sent (embeddings : list Embedding) (cell : Cell) : jsstring :=
  match cached embeddings cell with
  | Some _ => cell_source1 cell
  | None => cell_source cell
  end.

Definition hashed (embeddings : list Embedding) (cell : Cell) : jsstring :=
  match cached embeddings cell with
  | Some _ => calculateHash (cell_source cell)
  | None => calculateHash (cell_source1 cell)
  end.

(** [cells.filter(cell => cell.source.trim() !== '').map(...)]. *)
Definition tasks (embeddings : list Embedding) (cells : list Cell)
    : list Task :=
  task embeddings <$> filter (λ cell, trim (cell_source cell) ≠ []) cells.

(** The code after [await Promise.allSettled(promises)], given the
    array the tasks have filled. *)
Definition settle (embeddingsJSON : list Embedding) (path : jsstring)
    (ts : list Task) (newEmbeddingsArray : list Embedding) : Refresh :=
  let embeddings := embeddingsJSON in
  let oldSet : gset jsstring := list_to_set (e_hash <$> embeddings) in
  let newSet : gset jsstring :=
    list_to_set (e_hash <$> newEmbeddingsArray) in
  {| r_embeddings := embeddings;
     r_newEmbeddingsArray := newEmbeddingsArray;
     r_requested := mjoin (requested <$> ts);
     r_logged := mjoin (logged <$> ts);
     r_saved := if isSetsEqual oldSet newSet then None
                else Some (path, newEmbeddingsArray) |}.

(** [createEmbeddings(embeddingsJSON, cells, path)] when the tasks
    complete in cell order. *)
Definition createEmbeddings (embeddingsJSON : list Embedding)
    (cells : list Cell) (path : jsstring) : Refresh :=
  let ts := tasks embeddingsJSON cells in
  settle embeddingsJSON path ts (omap pushed ts).

(** The tasks run concurrently and each pushes when its own awaits
    resolve, so [newEmbeddingsArray] holds the pushed entries in
    completion order: any permutation of the cell order. *)
Inductive createEmbeddings_outcome (embeddingsJSON : list Embedding)
    (cells : list Cell) (path : jsstring) : Refresh → Prop :=
  | completion_order (newEmbeddingsArray : list Embedding) :
      newEmbeddingsArray ≡ₚ omap pushed (tasks embeddingsJSON cells) →
      createEmbeddings_outcome embeddingsJSON cells path
        (settle embeddingsJSON path (tasks embeddingsJSON cells)
           newEmbeddingsArray).

(** What is at [path] once the refresh is over: the array written, or
    the array read when nothing was written. *)
Definition persisted (embeddingsJSON : list Embedding) (r : Refresh)
    : list Embedding :=
  match r_saved r with
  | Some (_, content) => content
  | None => embeddingsJSON
  end.

End Cache.

(** ** The refresh loop: [getEmbeddings] *)

(** What the loop reads and writes: the JSON file at [embeddingsPath]
    ([None]: [contents.get] rejects, the file does not exist yet; the
    file otherwise parses to an array of entries) and the module-level
    [let embeddings] that [getTopSimilarities] is handed ([None] until
    the first [createEmbeddings] call assigns it). *)
Record Host := {
  h_file : option (list Embedding);
  h_embeddings : option (list Embedding)
}.

(** One round of [getEmbeddings] on an open notebook with the given
    cells: [contents.get(embeddingsPath)] either rejects, and the
    [.catch] saves an empty array, or fulfils, and the [.then] calls
    [createEmbeddings] on the parsed file. A [contents.save] is taken to
    reach the file. *)
Inductive getEmbeddings_round
    (calculateHash : jsstring → jsstring)
    (openaiEmbeddings : jsstring → JsResult (list number))
    (cells : list Cell) (embeddingsPath : jsstring) : Host → Host → Prop :=
  | round_not_found h :
      h_file h = None →
      getEmbeddings_round calculateHash openaiEmbeddings cells embeddingsPath
        h {| h_file := Some []; h_embeddings := h_embeddings h |}
  | round_refresh h embJSON r :
      h_file h = Some embJSON →
      createEmbeddings_outcome calculateHash openaiEmbeddings
        embJSON cells embeddingsPath r →
      getEmbeddings_round calculateHash openaiEmbeddings cells embeddingsPath
        h {| h_file := match r_saved r with
                       | Some (_, content) => Some content
                       | None => h_file h
                       end;
             h_embeddings := Some (r_embeddings r) |}.

(** One round when the tasks of the refresh complete in cell order. *)
Definition getEmbeddings
    (calculateHash : jsstring → jsstring)
    (openaiEmbeddings : jsstring → JsResult (list number))
    (cells : list Cell) (embeddingsPath : jsstring) (h : Host) : Host :=
  match h_file h with
  | None => {| h_file := Some []; h_embeddings := h_embeddings h |}
  | Some embJSON =>
      let r := createEmbeddings calculateHash openaiEmbeddings embJSON
                 cells embeddingsPath in
      {| h_file := match r_saved r with
                   | Some (_, content) => Some content
                   | None => h_file h
                   end;
         h_embeddings := Some (r_embeddings r) |}
  end.

(** ** Similarity ranking *)

Module Ranker.

#[export] Instance number_eq_dec : EqDecision number := Req_dec_T.
#[export] Instance number_lt_dec : RelDecision Rlt := Rlt_dec.

(** An element of a RankedResult: [{id, score, source}]. *)
Record Ranked := {
  rk_id : jsstring;
  rk_score : number;
  rk_source : jsstring
}.

(** Modelled from the spec: the similarity code of [./prompt] is absent
    from the sources. Dot product of two vectors. *)
Definition dot (u v : list number) : number :=
  foldr Rplus 0%R (zip_with Rmult u v).

(** Modelled from the spec: the norm of a vector (absent [./prompt]). *)
Definition norm (v : list number) : number := sqrt (dot v v).

(** Modelled from the spec: cosine similarity (absent [./prompt]), the
    dot product divided by the product of the norms, and 0 when either
    vector has zero norm. *)
Definition cosineSimilarity (u v : list number) : number :=
  if decide (norm u = 0%R ∨ norm v = 0%R) then 0%R
  else (dot u v / (norm u * norm v))%R.

(** Modelled from the spec: the score of one store entry against the
    query vector (absent [./prompt]). *)
Definition rank (queryVector : list number) (e : Embedding) : Ranked :=
  {| rk_id := e_id e;
     rk_score := cosineSimilarity queryVector (e_embedding e);
     rk_source := e_source e |}.

(** Descending order of scores: [a] may stand before [b]. *)
Definition beats (a b : Ranked) : Prop := (rk_score b <= rk_score a)%R.

(** Modelled from the spec: one step of the stable sort by descending
    score (absent [./prompt]); [x] stood before every element of [l] and
    stays before those that do not beat it. *)
Fixpoint insertByScore (x : Ranked) (l : list Ranked) : list Ranked :=
  match l with
  | [] => [x]
  | y :: l' =>
      if decide (rk_score x < rk_score y)%R then y :: insertByScore x l'
      else x :: l
  end.

(** Modelled from the spec: stable sort, highest score first (absent
    [./prompt]). *)
Definition sortByScore (l : list Ranked) : list Ranked :=
  foldr insertByScore [] l.

(** Modelled from the spec: the entries [topK] ranks (absent [./prompt]),
    every entry of the store but the one whose id is [excludeId]. *)
Definition eligible (store : list Embedding) (excludeId : option jsstring)
    : list Embedding :=
  filter (λ e, Some (e_id e) ≠ excludeId) store.

(** Modelled from the spec: [topK(queryVector, store, K, excludeId?)]
    (absent [./prompt]): the K highest-scoring eligible entries, ties in
    store order, all of them when there are fewer than K. *)
Definition topK (queryVector : list number) (store : list Embedding)
    (K : nat) (excludeId : option jsstring) : list Ranked :=
  take K (sortByScore (rank queryVector <$> eligible store excludeId)).


End Ranker.

(** ** Streaming apply engine *)

Module StreamingApply.

Inductive Status := Active | Completed | Cancelled | Failed.

(** What the diff surface and the user are told. *)
Inductive Notice :=
  | Updated (buffer : jsstring)
  | Final (buffer : jsstring)
  | Surfaced (error : jsstring).

(** Modelled from the spec: [openAiStream] of [./prompt] is absent from
    the sources. A StreamSession with its code snapshot, its buffer, its
    status, and the notices sent so far (oldest first). *)
Record StreamSession := {
  originalCode : jsstring;
  proposedCode : jsstring;
  status : Status;
  notices : list Notice
}.

(** What reaches a session: a chunk of the model's answer, the end of
    the stream, a provider or transport error, a cancellation. *)
Inductive Signal :=
  | Chunk (text : jsstring)
  | Exhausted
  | ProviderError (error : jsstring)
  | Cancel.

(** Modelled from the spec: a new session on [code] (absent
    [openAiStream]). *)
Definition start (code : jsstring) : StreamSession :=
  {| originalCode := code; proposedCode := []; status := Active;
     notices := [] |}.

(** Modelled from the spec: the transition rules of a StreamSession
    (absent [openAiStream]). While Active a chunk is appended and the
    surface notified, exhaustion completes, an error fails and is
    surfaced with the buffer kept, cancellation cancels; in every other
    status the signal is dropped. *)
Definition deliver (s : StreamSession) (sig : Signal) : StreamSession :=
  match status s with
  | Active =>
      match sig with
      | Chunk text =>
          {| originalCode := originalCode s;
             proposedCode := proposedCode s ++ text;
             status := Active;
             notices := notices s ++ [Updated (proposedCode s ++ text)] |}
      | Exhausted =>
          {| originalCode := originalCode s;
             proposedCode := proposedCode s;
             status := Completed;
             notices := notices s ++ [Final (proposedCode s)] |}
      | ProviderError error =>
          {| originalCode := originalCode s;
             proposedCode := proposedCode s;
             status := Failed;
             notices := notices s ++ [Surfaced error] |}
      | Cancel =>
          {| originalCode := originalCode s;
             proposedCode := proposedCode s;
             status := Cancelled;
             notices := notices s |}
      end
  | _ => s
  end.

(** Signals delivered one after the other. *)
Definition run (s : StreamSession) (sigs : list Signal) : StreamSession :=
  foldl deliver s sigs.

End StreamingApply.

(** ** Session controller: the handlers of [index.ts]

    The handlers are modelled by what they do to the children of the
    cell node, to the outputs of the cell model, and by the calls they
    make ([posthog.capture], [editor.focus], [openAiStream],
    [console.error]). Styling is left out; what [processTaggedVariables],
    [getSelectedCode] and the awaited [getTopSimilarities] return and
    the captured [oldCode] are arguments. An [async] handler is split at
    its [await]. *)

Module Controller.


(** The elements the handlers append to [activeCell.node]; [key] tells
    the elements created by different calls apart. A
    [<p style="margin-left: 70px;">] status line, and a
    [div.pretzelParentContainerAI] that holds the input box of
    [execute] until [handleSubmit] removes it and, once [renderEditor]
    ran, the diff editor with the proposed code it shows. *)
Inductive Element :=
  | StatusElement (key : nat) (textContent : jsstring)
  | ParentContainer (key : nat) (inputContainer : bool)
      (diffEditor : option jsstring).

#[export] Instance Element_eq_dec : EqDecision Element.
Proof. solve_decision. Defined.

Definition key (e : Element) : nat :=
  match e with
  | StatusElement k _ => k
  | ParentContainer k _ _ => k
  end.

(** Matches the selector ['.pretzelParentContainerAI']. *)
Definition isParentContainer (e : Element) : bool :=
  match e with ParentContainer _ _ _ => true | _ => false end.

(** Matches the selector ['p[style="margin-left: 70px;"]']. *)
Definition isStatusElement (e : Element) : bool :=
  match e with StatusElement _ _ => true | _ => false end.

(** The arguments of [generatePrompt] (of [./prompt], absent from the
    sources); the prompt text is not modelled beyond them. *)
Record Prompt := {
  p_userInput : jsstring;
  p_oldCode : jsstring;
  p_topSimilarities : list jsstring;
  p_selectedCode : jsstring;
  p_traceback : option jsstring
}.

(** What a handler does outside the cell nodes and outputs. *)
Inductive Effect :=
  | Capture (event : jsstring)                 (* posthog.capture *)
  | Focus (cell : jsstring)                    (* activeCell.editor.focus() *)
  | OpenAiStream (parentContainer : nat) (prompt : Prompt)
  | ConsoleError (message : jsstring).

(** An entry of [cellModel.outputs]; [traceback] is the text
    [handleFixError] makes of it. *)
Record Output := {
  output_type : jsstring;
  traceback : option jsstring
}.

(** The part of the page the handlers read and write. *)
Record Page := {
  (** per cell id, the status lines and session containers that the
      handlers appended to [cell.node], in document order (the buttons
      are kept apart, in [Buttons]) *)
  nodes : gmap jsstring (list Element);
  (** per cell id, [cellModel.outputs] *)
  outputs : gmap jsstring (list Output);
  (** [notebookTracker.activeCell] *)
  activeCell : option jsstring;
  (** number of elements created so far (the next key) *)
  created : nat;
  (** effects so far, oldest first *)
  effects : list Effect
}.

Definition initial : Page :=
  {| nodes := ∅; outputs := ∅; activeCell := None; created := 0;
     effects := [] |}.

Definition children (st : Page) (cell : jsstring) : list Element :=
  default [] (nodes st !! cell).

Definition set_children (st : Page) (cell : jsstring) (l : list Element)
    : Page :=
  {| nodes := <[cell := l]> (nodes st); outputs := outputs st;
     activeCell := activeCell st; created := created st;
     effects := effects st |}.

Definition set_created (st : Page) (n : nat) : Page :=
  {| nodes := nodes st; outputs := outputs st;
     activeCell := activeCell st; created := n; effects := effects st |}.

Definition emit (st : Page) (es : list Effect) : Page :=
  {| nodes := nodes st; outputs := outputs st;
     activeCell := activeCell st; created := created st;
     effects := effects st ++ es |}.

(** [statusElements.forEach(element => element.remove())]. *)
Definition removeStatusElements (l : list Element) : list Element :=
  filter (λ e, ¬ isStatusElement e) l.

(** [node.removeChild(child)] for the child with the given key. *)
Definition removeChild (k : nat) (l : list Element) : list Element :=
  filter (λ e, key e ≠ k) l.

(** Is the container with this key a child of the node? *)
Definition attached (k : nat) (l : list Element) : bool :=
  bool_decide (Exists (λ e, isParentContainer e ∧ key e = k) l).

(** The [execute] of the ['pretzelai:replace-code'] command. With a
    [.pretzelParentContainerAI] under the active cell it removes that
    div and the status lines and returns; otherwise it appends a status
    line and a parent container with the input box. *)
Definition execute (st : Page) : Page :=
  match activeCell st with
  | None => st
  | Some cell =>
      let node := children st cell in
      match list_find (λ e, isParentContainer e) node with
      | Some (i, existingDiv) =>
          emit
            (set_children st cell (removeStatusElements (delete i node)))
            [Capture (js "Remove via Cmd K"); Focus cell]
      | None =>
          let statusElement := StatusElement (created st) [] in
          let parentContainer :=
            ParentContainer (S (created st)) true None in
          set_created
            (set_children st cell (node ++ [statusElement; parentContainer]))
            (S (S (created st)))
      end
  end.

(** [removeHandler], the click listener of the Remove button that
    [execute] put into [parentContainer] under [cell]. [removeChild]
    throws when the container is no longer a child, and the rest of the
    handler does not run. *)
Definition removeHandler (st : Page) (cell : jsstring)
    (parentContainer : nat) : Page :=
  let st := emit st [Capture (js "Remove via Click")] in
  let node := children st cell in
  if attached parentContainer node then
    emit
      (set_children st cell
         (removeStatusElements (removeChild parentContainer node)))
      [Focus cell]
  else st.

Definition set_textContent (k : nat) (text : jsstring) (e : Element)
    : Element :=
  match e with
  | StatusElement k' _ => if decide (k' = k) then StatusElement k text else e
  | _ => e
  end.

Definition remove_inputContainer (k : nat) (e : Element) : Element :=
  match e with
  | ParentContainer k' _ d =>
      if decide (k' = k) then ParentContainer k false d else e
  | _ => e
  end.

Definition set_diffEditor (k : nat) (code : jsstring) (e : Element)
    : Element :=
  match e with
  | ParentContainer k' i _ =>
      if decide (k' = k) then ParentContainer k i (Some code) else e
  | _ => e
  end.

(** [handleSubmit] up to its first [await]: the input box leaves the
    parent container and the status line reads 'Calculating
    embeddings...'. It runs from the Submit button or the Enter key of
    the input box, so with the input box still in place. *)
Definition handleSubmit_begin (st : Page) (cell : jsstring)
    (parentContainer statusElement : nat) : Page :=
  let node := children st cell in
  if bool_decide (ParentContainer parentContainer true None ∈ node) then
    set_children st cell
      (set_textContent statusElement (js "Calculating embeddings...")
         <$> (remove_inputContainer parentContainer <$> node))
  else st.


(** [handleSubmit] after [processTaggedVariables], for a non-empty
    input: the [try] block around [await getTopSimilarities(...)],
    [generatePrompt], [renderEditor] and [openAiStream], and its
    [catch], which removes the parent container from the cell node
    ([removeChild] throws, and changes nothing, when it is no longer a
    child). [retrieval] is the settled [getTopSimilarities] promise. *)
Definition handleSubmit_resume (st : Page)
    (retrieval : JsResult (list jsstring)) (cell : jsstring)
    (parentContainer : nat) (oldCode userInput extractedCode : jsstring)
    : Page :=
  match retrieval with
  | Fulfilled topSimilarities =>
      let prompt := {| p_userInput := userInput; p_oldCode := oldCode;
                       p_topSimilarities := topSimilarities;
                       p_selectedCode := extractedCode;
                       p_traceback := None |} in
      let st := emit st [Capture (js "prompt")] in
      let st := set_children st cell
                  (set_diffEditor parentContainer [] <$> children st cell) in
      emit st [OpenAiStream parentContainer prompt]
  | Rejected error =>
      set_children st cell (removeChild parentContainer (children st cell))
  end.

(** [handleSubmit(userInput)] run without another handler in between;
    [processed] is what [processTaggedVariables] returns. Without the
    input box [parentContainer.removeChild(inputContainer)], its first
    statement, throws, and nothing more is done. *)
Definition handleSubmit (st : Page)
    (retrieval : JsResult (list jsstring)) (cell : jsstring)
    (parentContainer statusElement : nat)
    (oldCode userInput processed extractedCode : jsstring) : Page :=
  if bool_decide
       (ParentContainer parentContainer true None ∈ children st cell) then
    let st := handleSubmit_begin st cell parentContainer statusElement in
    if decide (userInput ≠ []) then
      handleSubmit_resume st retrieval cell parentContainer oldCode
        processed extractedCode
    else st
  else st.

(** The click listener of the Submit button. *)
Definition submitClick (st : Page)
    (retrieval : JsResult (list jsstring)) (cell : jsstring)
    (parentContainer statusElement : nat)
    (oldCode userInput processed extractedCode : jsstring) : Page :=
  handleSubmit (emit st [Capture (js "Submit via Click")]) retrieval cell
    parentContainer statusElement oldCode userInput processed extractedCode.

(** The Enter branch of the keydown listener of the input field;
    [disabled] is [submitButton.disabled]. *)
Definition submitEnter (disabled : bool) (st : Page)
    (retrieval : JsResult (list jsstring)) (cell : jsstring)
    (parentContainer statusElement : nat)
    (oldCode userInput processed extractedCode : jsstring) : Page :=
  if disabled then st
  else
    handleSubmit (emit st [Capture (js "Submit via Enter")]) retrieval cell
      parentContainer statusElement oldCode userInput processed
      extractedCode.

(** [findErrorOutput]. *)
Definition findErrorOutput (outs : list Output) : option Output :=
  snd <$> list_find (λ o, output_type o = js "error") outs.

(** [handleFixError(cellModel)] up to its [await]: it reads the
    traceback of the error output and appends the status line to the
    node of the active cell. Without an error output or an active cell
    the non-null assertions fail and nothing is done. *)
Definition handleFixError_begin (st : Page) (cellModel : jsstring) : Page :=
  match findErrorOutput (default [] (outputs st !! cellModel)),
        activeCell st with
  | Some _, Some cell =>
      set_created
        (set_children st cell
           (children st cell
              ++ [StatusElement (created st)
                    (js "Calculating embeddings...")]))
        (S (created st))
  | _, _ => st
  end.

(** [handleFixError] after [await getTopSimilarities(...)]: a rejection
    ends the handler; otherwise a parent container with the diff editor
    is appended to the node of [cell] (the active cell when the button
    was clicked) and [openAiStream] is called. *)
Definition handleFixError_resume (st : Page)
    (retrieval : JsResult (list jsstring)) (cell : jsstring)
    (originalCode tb : jsstring) : Page :=
  match retrieval with
  | Fulfilled topSimilarities =>
      let prompt := {| p_userInput := []; p_oldCode := originalCode;
                       p_topSimilarities := topSimilarities;
                       p_selectedCode := [];
                       p_traceback := Some tb |} in
      let parentContainer := ParentContainer (created st) false (Some []) in
      emit
        (set_created
           (set_children st cell (children st cell ++ [parentContainer]))
           (S (created st)))
        [OpenAiStream (created st) prompt]
  | Rejected error => st
  end.

(** The [.then] and [.catch] that [handleFixError] chains on the promise
    of [openAiStream]. *)
Definition handleFixError_settled (st : Page) (cellModel : jsstring)
    (stream : JsResult unit) : Page :=
  match stream with
  | Fulfilled _ =>
      {| nodes := nodes st; outputs := <[cellModel := []]> (outputs st);
         activeCell := activeCell st; created := created st;
         effects := effects st |}
  | Rejected error =>
      emit st [ConsoleError (js "Error during OpenAI stream:" ++ error)]
  end.

(** Modelled from the spec: [openAiStream] of [./prompt] is absent from
    the sources; by the spec each chunk of the stream is appended to the
    proposed code, which the diff editor of the session's container
    shows. *)
Definition applyChunk (k : nat) (chunk : jsstring) (e : Element) : Element :=
  match e with
  | ParentContainer k' i (Some code) =>
      if decide (k' = k) then ParentContainer k i (Some (code ++ chunk))
      else e
  | _ => e
  end.

Definition streamChunk (st : Page) (parentContainer : nat)
    (chunk : jsstring) : Page :=
  {| nodes := (λ node : list Element,
                applyChunk parentContainer chunk <$> node) <$> nodes st;
     outputs := outputs st; activeCell := activeCell st;
     created := created st; effects := effects st |}.

(** The proposed code that the diff editors of the container with this
    key show under a cell. *)
Definition proposedCode (st : Page) (cell : jsstring) (k : nat)
    : list jsstring :=
  omap (λ e, match e with
             | ParentContainer k' _ (Some code) =>
                 if decide (k' = k) then Some code else None
             | _ => None
             end) (children st cell).

(** The keys of the parent containers among the children of a node. *)
Definition containerKeys (l : list Element) : list nat :=
  key <$> filter (λ e, isParentContainer e) l.

(** The parent containers under a cell node, by key. *)
Definition containers (st : Page) (cell : jsstring) : list nat :=
  containerKeys (children st cell).

(** The containers that were handed to [openAiStream]. *)
Definition streams (es : list Effect) : list nat :=
  omap (λ e, match e with OpenAiStream k _ => Some k | _ => None end) es.

(** The sessions in progress on a cell: the parent containers still
    under its node whose stream has been started. *)
Definition activeSessions (st : Page) (cell : jsstring) : list nat :=
  filter (λ k, k ∈ streams (effects st)) (containers st cell).

(** What can happen on the page. *)
Inductive Action :=
  | ActiveCellChanged (cell : option jsstring)
  | OutputsChanged (cellModel : jsstring) (outs : list Output)
  | Execute
  | RemoveClick (cell : jsstring) (parentContainer : nat)
  | Submit (retrieval : JsResult (list jsstring)) (cell : jsstring)
      (parentContainer statusElement : nat)
      (oldCode userInput processed extractedCode : jsstring)
  | SubmitBegin (cell : jsstring) (parentContainer statusElement : nat)
  | SubmitResume (retrieval : JsResult (list jsstring)) (cell : jsstring)
      (parentContainer : nat) (oldCode userInput extractedCode : jsstring)
  | FixErrorBegin (cellModel : jsstring)
  | FixErrorResume (retrieval : JsResult (list jsstring)) (cell : jsstring)
      (originalCode tb : jsstring)
  | FixErrorSettled (cellModel : jsstring) (stream : JsResult unit)
  | StreamChunk (parentContainer : nat) (chunk : jsstring).

Definition step (st : Page) (a : Action) : Page :=
  match a with
  | ActiveCellChanged cell =>
      {| nodes := nodes st; outputs := outputs st; activeCell := cell;
         created := created st; effects := effects st |}
  | OutputsChanged cellModel outs =>
      {| nodes := nodes st; outputs := <[cellModel := outs]> (outputs st);
         activeCell := activeCell st; created := created st;
         effects := effects st |}
  | Execute => execute st
  | RemoveClick cell k => removeHandler st cell k
  | Submit retrieval cell k s oldCode userInput processed sel =>
      submitClick st retrieval cell k s oldCode userInput processed sel
  | SubmitBegin cell k s => handleSubmit_begin st cell k s
  | SubmitResume retrieval cell k oldCode userInput sel =>
      handleSubmit_resume st retrieval cell k oldCode userInput sel
  | FixErrorBegin cellModel => handleFixError_begin st cellModel
  | FixErrorResume retrieval cell originalCode tb =>
      handleFixError_resume st retrieval cell originalCode tb
  | FixErrorSettled cellModel stream =>
      handleFixError_settled st cellModel stream
  | StreamChunk k chunk => streamChunk st k chunk
  end.

(** The page after a sequence of actions. *)
Definition after (actions : list Action) : Page :=
  foldl step initial actions.

(** The actions of the replace-code interaction and of its stream. *)
Definition replaceCode (a : Action) : bool :=
  match a with
  | FixErrorBegin _ | FixErrorResume _ _ _ _ | FixErrorSettled _ _ => false
  | _ => true
  end.

End Controller.

(** ** Scenarios

    Concrete data: the three vectors of the ranking example, a small
    notebook with its cached store, and two sequences of actions. *)

Module Scenarios.
Import Controller.

Definition va : Embedding :=
  {| e_id := js "a"; e_source := js "a"; e_hash := js "ha";
     e_embedding := [1; 0]%R |}.
Definition vb : Embedding :=
  {| e_id := js "b"; e_source := js "b"; e_hash := js "hb";
     e_embedding := [0; 1]%R |}.
Definition vc : Embedding :=
  {| e_id := js "c"; e_source := js "c"; e_hash := js "hc";
     e_embedding := [9 / 10; 1 / 10]%R |}.

(** A stand-in digest: the text behind a ['#']. *)
Definition digest (text : jsstring) : jsstring := 35%N :: text.

(** A provider that rejects the text ["boom"] and answers every other
    text with the same vector. *)
Definition provider (text : jsstring) : JsResult (list number) :=
  if decide (text = js "boom") then Rejected (js "429")
  else Fulfilled [1%R].


(** A cell that nobody edits while the refresh runs. *)
Definition quiet (id source : jsstring) : Cell :=
  {| cell_id := id; cell_source := source; cell_source1 := source;
     cell_source2 := source |}.

Definition cellA : Cell := quiet (js "a") (js "x = 1").
Definition cellB : Cell := quiet (js "b") (js "y = 2").
Definition cellC : Cell := quiet (js "c") (js "boom").

Definition entryOf (id text : jsstring) : Embedding :=
  {| e_id := id; e_source := text; e_hash := digest text;
     e_embedding := [1%R] |}.

(** The store computed when cell b still read ["y = 1"] and a cell z
    existed. *)
Definition stored : list Embedding :=
  [entryOf (js "a") (js "x = 1"); entryOf (js "b") (js "y = 1");
   entryOf (js "z") (js "gone")].

(** A store for two cells with the same text. *)
Definition twins : list Embedding :=
  [entryOf (js "a") (js "x = 1"); entryOf (js "b") (js "x = 1")].

(** A store for the cells a and b, and the two cells after they have
    swapped their texts. *)
Definition pair : list Embedding :=
  [entryOf (js "a") (js "x = 1"); entryOf (js "b") (js "y = 1")].

Definition swapped : list Cell :=
  [quiet (js "a") (js "y = 1"); quiet (js "b") (js "x = 1")].

(** Cell a, edited while the provider answers. *)
Definition edited : Cell :=
  {| cell_id := js "a"; cell_source := js "x = 1";
     cell_source1 := js "x = 1"; cell_source2 := js "x = 12" |}.

Definition embeddingsPath : jsstring :=
  js "./.embeddings/nb_embeddings.json".

Definition errorOutput : Output :=
  {| output_type := js "error"; traceback := Some (js "NameError") |}.

(** Cmd K and Submit on a cell, then Fix Error with AI on the same
    cell. *)
Definition twoSessions : list Action :=
  [ActiveCellChanged (Some (js "cell-1"));
   OutputsChanged (js "cell-1") [errorOutput];
   Execute;
   Submit (Fulfilled []) (js "cell-1") 1 0 (js "x = y") (js "define y")
     (js "define y") [];
   FixErrorBegin (js "cell-1");
   FixErrorResume (Fulfilled []) (js "cell-1") (js "x = y")
     (js "NameError")].


(** Cmd K on a cell. *)
Definition opened : list Action :=
  [ActiveCellChanged (Some (js "cell-1")); Execute].

(** The file holds [stored] and no refresh has run yet. *)
Definition disk : Host := {| h_file := Some stored; h_embeddings := None |}.

End Scenarios.

(** ** Strings: the [String.prototype] methods the handlers call *)

Module JsString.

(** The line feed ['\n']. *)
Definition LF : N := 10.

(** [s.startsWith(pat)]. *)
Fixpoint startsWith (pat s : jsstring) : bool :=
  match pat, s with
  | [], _ => true
  | p :: pat', c :: s' => (p =? c)%N && startsWith pat' s'
  | _ :: _, [] => false
  end.

(** [s.indexOf(pat)]: the index of the first occurrence, [None] for
    [-1]. *)
Fixpoint indexOf (pat s : jsstring) : option nat :=
  if startsWith pat s then Some 0
  else match s with
       | [] => None
       | _ :: s' => S <$> indexOf pat s'
       end.

(** [s.includes(pat)]. *)
Definition includes (pat s : jsstring) : bool :=
  bool_decide (is_Some (indexOf pat s)).

(** [s.replace(pat, rep)] for a string pattern and a replacement
    without ['$']: the first occurrence is replaced. *)
Definition replace (s pat rep : jsstring) : jsstring :=
  match indexOf pat s with
  | Some i => take i s ++ rep ++ drop (i + length pat) s
  | None => s
  end.

(** [s.substring(from, to)] for non-negative integers: both are capped
    at the length and swapped when [from] is the larger. *)
Definition substring (s : jsstring) (from to : nat) : jsstring :=
  let from' := from `min` length s in
  let to' := to `min` length s in
  take (from' `max` to' - from' `min` to') (drop (from' `min` to') s).

(** [s.substring(from)]. *)
Definition substringFrom (s : jsstring) (from : nat) : jsstring :=
  drop (from `min` length s) s.

(** [s.split(sep)] for a separator of one code unit; the empty string
    splits into one empty string. *)
Fixpoint split (sep : N) (s : jsstring) : list jsstring :=
  match s with
  | [] => [[]]
  | c :: s' =>
      if (c =? sep)%N then [] :: split sep s'
      else match split sep s' with
           | piece :: pieces => (c :: piece) :: pieces
           | [] => [[c]]
           end
  end.

(** [arr.join(sep)]. *)
Fixpoint join (sep : jsstring) (arr : list jsstring) : jsstring :=
  match arr with
  | [] => []
  | [piece] => piece
  | piece :: arr' => piece ++ sep ++ join sep arr'
  end.

(** What a template literal makes of a [string | null]. *)
Definition interpolate (v : option jsstring) : jsstring :=
  default (js "null") v.

(** [v || fallback] for a [string | undefined]: the empty string is
    falsy. *)
Definition orElse (v : option jsstring) (fallback : jsstring) : jsstring :=
  match v with
  | Some (c :: s) => c :: s
  | _ => fallback
  end.

End JsString.

(** ** Settings and the AI client: [loadSettings], [loadAIClient] and
    the [updateFunc] of the settings listener *)

Module Settings.
Import JsString.

(** The composite values [loadSettings] reads from the registry; a
    missing one is [None]. *)
Record Composite := {
  c_openAiApiKey : option jsstring;
  c_openAiBaseUrl : option jsstring;
  c_azureBaseUrl : option jsstring;
  c_azureDeploymentName : option jsstring;
  c_azureApiKey : option jsstring;
  c_aiService : option jsstring
}.

(** [aiClient]: [new OpenAI({apiKey})], [new OpenAIClient(azureBaseUrl,
    new AzureKeyCredential(azureApiKey))], or [null]. *)
Inductive AiClient :=
  | OpenAI (apiKey : jsstring)
  | OpenAIClient (azureBaseUrl azureApiKey : jsstring).

(** The [let] variables of [activate] that the settings fill. *)
Record Config := {
  openAiApiKey : jsstring;
  openAiBaseUrl : jsstring;
  aiService : jsstring;
  azureBaseUrl : jsstring;
  azureDeploymentName : jsstring;
  azureApiKey : jsstring;
  aiClient : option AiClient
}.

(** [loadAIClient], on the variables as they are. *)
Definition loadAIClient (cfg : Config) : Config :=
  {| openAiApiKey := openAiApiKey cfg;
     openAiBaseUrl := openAiBaseUrl cfg;
     aiService := aiService cfg;
     azureBaseUrl := azureBaseUrl cfg;
     azureDeploymentName := azureDeploymentName cfg;
     azureApiKey := azureApiKey cfg;
     aiClient :=
       if decide (aiService cfg = js "OpenAI API key") then
         Some (OpenAI (openAiApiKey cfg))
       else if decide (aiService cfg = js "Use Azure API") then
         Some (OpenAIClient (azureBaseUrl cfg) (azureApiKey cfg))
       else None |}.

(** The assignments of [loadSettings] with their [|| ''] defaults;
    [aiClient] is not assigned here. *)
Definition assign (composite : Composite) (cfg : Config) : Config :=
  {| openAiApiKey := orElse (c_openAiApiKey composite) [];
     openAiBaseUrl := orElse (c_openAiBaseUrl composite) [];
     aiService :=
       orElse (c_aiService composite) (js "Use Pretzel AI Server");
     azureBaseUrl := orElse (c_azureBaseUrl composite) [];
     azureDeploymentName := orElse (c_azureDeploymentName composite) [];
     azureApiKey := orElse (c_azureApiKey composite) [];
     aiClient := aiClient cfg |}.

(** The condition of [updateFunc] under which the Submit button is
    enabled (a non-empty string is truthy). *)
Definition submitEnabled (cfg : Config) : bool :=
  bool_decide (aiService cfg = js "OpenAI API key" ∧ openAiApiKey cfg ≠ [])
  || bool_decide (aiService cfg = js "Use Pretzel AI Server")
  || bool_decide (aiService cfg = js "Use Azure API" ∧ azureBaseUrl cfg ≠ []
                  ∧ azureDeploymentName cfg ≠ [] ∧ azureApiKey cfg ≠ []).

(** What the two [settingRegistry.load] calls of [loadSettings] settle
    to: the composite values of the plugin, and the cookie consent of
    the notification plugin. *)
Record Registry := {
  plugin : JsResult Composite;
  notification : JsResult jsstring
}.

(** The variables, the [disabled] flag of the first
    [.pretzelInputSubmitButton] of the document ([None] without one),
    and the [console.error] lines. *)
Record State := {
  vars : Config;
  submitDisabled : option bool;
  console : list jsstring
}.

(** [updateFunc]: only a Submit button that is in the document is
    touched. *)
Definition updateFunc (s : State) : State :=
  match submitDisabled s with
  | Some _ =>
      {| vars := vars s;
         submitDisabled := Some (negb (submitEnabled (vars s)));
         console := console s |}
  | None => s
  end.

(** [loadSettings(updateFunc?)]: [withUpdateFunc] tells whether the
    argument is passed (it is on a change of the plugin's settings, not
    at activation). A registry load that rejects ends the [try] block:
    what was assigned stays, and neither [updateFunc] nor [loadAIClient]
    runs. *)
Definition loadSettings (withUpdateFunc : bool) (registry : Registry)
    (s : State) : State :=
  match plugin registry with
  | Fulfilled composite =>
      let s := {| vars := assign composite (vars s);
                  submitDisabled := submitDisabled s;
                  console := console s |} in
      match notification registry with
      | Fulfilled posthogCookieConsent =>
          let s := if withUpdateFunc then updateFunc s else s in
          {| vars := loadAIClient (vars s);
             submitDisabled := submitDisabled s;
             console := console s |}
      | Rejected reason =>
          {| vars := vars s; submitDisabled := submitDisabled s;
             console :=
               console s
               ++ [js "Failed to load settings for Pretzel" ++ reason] |}
      end
  | Rejected reason =>
      {| vars := vars s; submitDisabled := submitDisabled s;
         console :=
           console s ++ [js "Failed to load settings for Pretzel" ++ reason] |}
  end.

End Settings.

(** ** The traceback of [handleFixError] *)

Module Traceback.
Import JsString.

(** What [findErrorOutput(outputs).toJSON().traceback] can be. *)
Inductive Value :=
  | Undefined
  | Text (s : jsstring)
  | Lines (lines : list jsstring)
  | Object (toString : jsstring).

Definition isDigit (c : N) : bool := ((48 <=? c) && (c <=? 57))%N.

Definition isLetter (c : N) : bool :=
  ((65 <=? c) && (c <=? 90) || (97 <=? c) && (c <=? 122))%N.

(** [[0-9;]*[a-zA-Z]] at the head of [s]: the number of code units it
    takes. The two classes are disjoint, so the longest run of
    parameters is the only candidate. *)
Fixpoint parameters (s : jsstring) : option nat :=
  match s with
  | c :: s' =>
      if isDigit c || (c =? 59)%N then S <$> parameters s'
      else if isLetter c then Some 1
      else None
  | [] => None
  end.

(** [/\x1B\[[0-9;]*[a-zA-Z]/] at the head of [s]: the length of the
    match. *)
Definition escapeSequence (s : jsstring) : option nat :=
  match s with
  | 27%N :: 91%N :: s' => (λ n, 2 + n) <$> parameters s'
  | _ => None
  end.

(** [s.replace(/\x1B\[[0-9;]*[a-zA-Z]/g, '')], scanning from the left;
    [skip] counts the code units of a match still to be dropped. *)
Fixpoint stripFrom (skip : nat) (s : jsstring) : jsstring :=
  match s with
  | [] => []
  | c :: s' =>
      match skip with
      | S skip' => stripFrom skip' s'
      | 0 =>
          match escapeSequence s with
          | Some n => stripFrom (pred n) s'
          | None => c :: stripFrom 0 s'
          end
      end
  end.

Definition stripAnsi (s : jsstring) : jsstring := stripFrom 0 s.

(** The text [handleFixError] makes of the traceback: a missing or empty
    one becomes 'No traceback found', an array is joined with line feeds
    and loses its ANSI colour sequences, anything else is its
    [toString()]. *)
Definition normalize (traceback : Value) : jsstring :=
  match traceback with
  | Undefined | Text [] => js "No traceback found"
  | Lines lines => stripAnsi (join [LF] lines)
  | Text s => s
  | Object s => s
  end.

End Traceback.

(** ** The path of the embeddings file in [getEmbeddings] *)

Module Paths.
Import JsString.

(** ['./.embeddings/' + currentNotebookPath.replace('.ipynb',
    '_embeddings.json')]. *)
Definition embeddingsPathOf (currentNotebookPath : jsstring) : jsstring :=
  js "./.embeddings/"
  ++ replace currentNotebookPath (js ".ipynb") (js "_embeddings.json").

End Paths.

(** ** The selected code: [getSelectedCode] *)

Module Selection.
Import JsString.

Record Position := { line : nat; column : nat }.

(** [editor.getSelection()]. *)
Record Range := { sel_start : Position; sel_end : Position }.

(** What one round of the [for] loop appends to [extractedCode]. *)
Definition extract (lines : list jsstring) (selection : Range) (i : nat)
    : jsstring :=
  let startLine := line (sel_start selection) in
  let endLine := line (sel_end selection) in
  let startColumn := column (sel_start selection) in
  let endColumn := column (sel_end selection) in
  match lines !! i with
  | Some lineContent =>
      if decide (i = startLine ∧ i = endLine) then
        substring lineContent startColumn endColumn
      else if decide (i = startLine) then
        substringFrom lineContent startColumn
      else if decide (i = endLine) then
        [LF] ++ substring lineContent 0 endColumn
      else [LF] ++ lineContent
  | None => []
  end.

(** The [extractedCode] that [getSelectedCode] returns; [selection] is
    [None] without active cell or editor. *)
Definition getSelectedCode (selection : option Range) (cellCode : jsstring)
    : jsstring :=
  let extractedCode :=
    match selection with
    | Some sel =>
        let startLine := line (sel_start sel) in
        let endLine := line (sel_end sel) in
        if decide (startLine ≠ endLine
                   ∨ column (sel_start sel) ≠ column (sel_end sel))
        then
          mjoin (extract (split LF cellCode) sel
                   <$> seq startLine (S endLine - startLine))
        else []
    | None => []
    end in
  trimEnd extractedCode.

End Selection.

(** ** Tagged variables: [getVariableValue] and
    [processTaggedVariables] *)

Module Variables.
Import JsString.

(** An IOPub message as the message hook reads it. *)
Record IOPubMessage := {
  msg_type : jsstring;
  content_name : jsstring;
  content_text : jsstring
}.

(** What [kernel.requestExecute({code})] brings: the messages the hook
    sees before [executeRequest.done] settles, and the settled [done]
    with [reply.content.status]. *)
Record Execution := {
  messages : list IOPubMessage;
  done : JsResult jsstring
}.

(** The kernel of the notebook session as it answers during one
    interaction. *)
Definition Kernel := jsstring → Execution.

(** The message hook: a stdout stream message overwrites
    [variableValue] with its trimmed text. *)
Definition hook (variableValue : option jsstring) (msg : IOPubMessage)
    : option jsstring :=
  if decide (msg_type msg = js "stream" ∧ content_name msg = js "stdout")
  then Some (trim (content_text msg))
  else variableValue.

(** [getVariableValue(variableName)]: the value and the [console.error]
    lines. *)
Definition getVariableValue (kernel : option Kernel)
    (variableName : jsstring) : option jsstring * list jsstring :=
  match kernel with
  | Some requestExecute =>
      let executeRequest :=
        requestExecute (js "print(" ++ variableName ++ js ")") in
      let variableValue := foldl hook None (messages executeRequest) in
      match done executeRequest with
      | Fulfilled status =>
          if decide (status = js "ok") then (variableValue, [])
          else (None, [js "Failed to retrieve variable value"])
      | Rejected error =>
          (None, [js "Error retrieving variable value:" ++ error])
      end
  | None => (None, [js "No active kernel found"])
  end.

(** [\w]. *)
Definition isWord (c : N) : bool :=
  ((48 <=? c) && (c <=? 57) || (65 <=? c) && (c <=? 90) || (c =? 95)
   || (97 <=? c) && (c <=? 122))%N.

(** The longest run of word characters at the head of [s]. *)
Fixpoint word (s : jsstring) : jsstring :=
  match s with
  | c :: s' => if isWord c then c :: word s' else []
  | [] => []
  end.

(** The names the loop over [/@(\w+)/g] visits, in order. A name holds
    no ['@'], so the search that resumes behind a name finds what a
    search from the next code unit finds. *)
Fixpoint taggedVariables (s : jsstring) : list jsstring :=
  match s with
  | [] => []
  | c :: s' =>
      if (c =? 64)%N then
        match word s' with
        | [] => taggedVariables s'
        | name => name :: taggedVariables s'
        end
      else taggedVariables s'
  end.

(** [importsCode]: of the cells with a line that includes 'import',
    the lines that include it, joined. *)
Definition importsCode (cells : list Cell) : jsstring :=
  let imports :=
    filter (λ cell, Exists (λ line, includes (js "import") line)
                      (split LF (cell_source cell))) cells in
  join [LF]
    ((λ cell,
        join [LF]
          (filter (λ line, includes (js "import") (trim line))
             (split LF (cell_source cell)))) <$> imports).

(** One round of the [while] loop: what is appended for a name. *)
Definition describe (kernel : option Kernel) (variableName : jsstring)
    : jsstring :=
  let variableType :=
    (getVariableValue kernel
       (js "type(" ++ variableName ++ js ")")).1 in
  match variableType with
  | Some type =>
      if includes (js "DataFrame") type then
        let variableColumns :=
          (getVariableValue kernel (variableName ++ js ".columns")).1 in
        [LF] ++ variableName
        ++ js " is a dataframe with the following columns: "
        ++ interpolate variableColumns ++ [LF]
      else if decide (type ≠ []) then
        let variableValue := (getVariableValue kernel variableName).1 in
        [LF] ++ js "Printing " ++ variableName
        ++ js " in Python returns the string "
        ++ interpolate variableValue ++ [LF]
      else []
  | None => []
  end.

(** The Python expression that lists the globals. *)
Definition getVarsCode : jsstring :=
  js "[var for var in globals() if not var.startswith('_') and not callable(globals()[var]) and var not in ['In', 'Out']]".

(** [processTaggedVariables(userInput)]: the text it resolves to. *)
Definition processTaggedVariables (kernel : option Kernel)
    (cells : list Cell) (userInput : jsstring) : jsstring :=
  let modifiedUserInput :=
    userInput
    ++ js "The following imports are already present in the notebook:"
    ++ [LF] ++ importsCode cells ++ [LF] in
  let listVars := (getVariableValue kernel getVarsCode).1 in
  let modifiedUserInput :=
    modifiedUserInput
    ++ js "The following variables exist in memory of the notebook kernel:"
    ++ [LF] ++ interpolate listVars ++ [LF] in
  foldl (λ text variableName, text ++ describe kernel variableName)
    modifiedUserInput (taggedVariables userInput).

End Variables.

(** ** The buttons: [addFixErrorButton], [addAskAIButton] and the
    listeners that call them *)

Module Buttons.
Import Controller.

(** The buttons of the page: per output node the keys of its
    [.fix-error-button]s, per cell node the keys of its
    [.pretzel-ai-button]s, both in document order, and the number of
    buttons created so far. *)
Record Buttons := {
  fixError : gmap jsstring (list nat);
  askAI : list (jsstring * nat);
  made : nat
}.

Definition none : Buttons := {| fixError := ∅; askAI := []; made := 0 |}.

(** [addFixErrorButton(cellNode, cellModel)]: the first existing button
    of the node is removed and a new one appended. *)
Definition addFixErrorButton (b : Buttons) (cellNode : jsstring) : Buttons :=
  let node := default [] (fixError b !! cellNode) in
  {| fixError := <[cellNode := tail node ++ [made b]]> (fixError b);
     askAI := askAI b;
     made := S (made b) |}.

(** The [onclick] of a fix-error button, before it calls
    [handleFixError]: the first button of the node is removed. *)
Definition fixErrorClicked (b : Buttons) (cellNode : jsstring) : Buttons :=
  {| fixError := <[cellNode := tail (default [] (fixError b !! cellNode))]>
                   (fixError b);
     askAI := askAI b;
     made := made b |}.

(** [addAskAIButton(cellNode)]: the first [.pretzel-ai-button] of the
    document is removed and a new one appended to the node. *)
Definition addAskAIButton (b : Buttons) (cellNode : jsstring) : Buttons :=
  {| fixError := fixError b;
     askAI := tail (askAI b) ++ [(cellNode, made b)];
     made := S (made b) |}.

(** The listener of [outputs.changed] that [activeCellChanged] connects
    for a code cell: with an error output the fix-error button is
    added. *)
Definition outputsChanged (b : Buttons) (cell : jsstring)
    (outs : list Output) : Buttons :=
  match findErrorOutput outs with
  | Some _ => addFixErrorButton b cell
  | None => b
  end.

(** The part of the [activeCellChanged] listener that adds the
    button: only for a code cell. *)
Definition activeCellChanged (b : Buttons) (cell : option (jsstring * bool))
    : Buttons :=
  match cell with
  | Some (cellNode, true) => addAskAIButton b cellNode
  | _ => b
  end.

(** What the listeners of the buttons react to. *)
Inductive Event :=
  | CellActivated (cell : option (jsstring * bool))
  | OutputsShown (cell : jsstring) (outs : list Output)
  | FixErrorClick (cellNode : jsstring).

Definition handle (b : Buttons) (e : Event) : Buttons :=
  match e with
  | CellActivated cell => activeCellChanged b cell
  | OutputsShown cell outs => outputsChanged b cell outs
  | FixErrorClick cellNode => fixErrorClicked b cellNode
  end.

(** The buttons after a sequence of events on a page without any. *)
Definition buttonsAfter (events : list Event) : Buttons :=
  foldl handle none events.

End Buttons.

(** * Properties *)

(** ** The embedding cache *)

Section CacheFacts.
Variable calculateHash : jsstring → jsstring.
Implicit Types (oe : jsstring → JsResult (list number)).
Implicit Types (old : list Embedding) (cells : list Cell) (c : Cell).

Lemma task_cases oe old c :
  task calculateHash oe old c =
    match cached old c with
    | Some existing =>
        if decide (calculateHash (cell_source c) ≠ e_hash existing)
        then recompute oe c (cell_source1 c) (calculateHash (cell_source c))
        else {| pushed := Some existing; requested := []; logged := [] |}
    | None =>
        recompute oe c (cell_source c) (calculateHash (cell_source1 c))
    end.
Proof.
  unfold task, cached, findIndex.
  destruct (list_find _ old) as [[i e]|] eqn:Hfind; simpl.
  - apply list_find_Some in Hfind as (Hi & _ & _).
    destruct (decide (Z.of_nat i ≠ (-1)%Z)) as [_|]; [|lia].
    by rewrite Nat2Z.id, Hi.
  - by destruct (decide ((-1)%Z ≠ (-1)%Z)).
Qed.

Lemma cached_Some old c e :
  cached old c = Some e → e ∈ old ∧ e_id e = cell_id c.
Proof.
  unfold cached. destruct (list_find _ old) as [[i x]|] eqn:Hfind; [|done].
  intros [= ->]. apply list_find_Some in Hfind as (Hi & Hid & _).
  split; [by eapply list_elem_of_lookup_2|done].
Qed.

Lemma cached_None old c :
  cached old c = None ↔ cell_id c ∉ e_id <$> old.
Proof.
  unfold cached. rewrite fmap_None, list_find_None, Forall_forall.
  rewrite list_elem_of_fmap. naive_solver.
Qed.

Lemma pushed_recompute oe c text hash e :
  pushed (recompute oe c text hash) = Some e ↔
  ∃ v, oe text = Fulfilled v ∧ e = newEntry c hash v.
Proof.
  unfold recompute. destruct (oe _) as [v|err]; simpl; naive_solver.
Qed.

Lemma pushed_task oe old c e :
  pushed (task calculateHash oe old c) = Some e ↔
  (¬ stale calculateHash old c ∧ cached old c = Some e) ∨
  (stale calculateHash old c ∧
   ∃ v, oe (sent old c) = Fulfilled v ∧
        e = newEntry c (hashed calculateHash old c) v).
Proof.
  rewrite task_cases. unfold stale, sent, hashed.
  destruct (cached old c) as [x|]; [case_decide|];
    rewrite ?pushed_recompute; simpl; naive_solver.
Qed.

Lemma pushed_task_None oe old c :
  pushed (task calculateHash oe old c) = None ↔
  stale calculateHash old c ∧ ∃ err, oe (sent old c) = Rejected err.
Proof.
  rewrite task_cases. unfold stale, recompute, sent.
  destruct (cached old c) as [x|]; [case_decide|];
    destruct (oe _); simpl; naive_solver.
Qed.

Lemma pushed_task_id oe old c e :
  pushed (task calculateHash oe old c) = Some e → e_id e = cell_id c.
Proof.
  rewrite pushed_task. intros [[_ H]|(_ & v & _ & ->)]; [|done].
  by apply cached_Some in H as [_ ?].
Qed.

Lemma hashed_unedited old c :
  unedited c → hashed calculateHash old c = calculateHash (cell_source c).
Proof. intros [H1 _]. unfold hashed. rewrite H1. by destruct (cached old c). Qed.

Lemma sent_unedited old c : unedited c → sent old c = cell_source c.
Proof. intros [H1 _]. unfold sent. rewrite H1. by destruct (cached old c). Qed.

Lemma pushed_task_hashed oe old c e :
  pushed (task calculateHash oe old c) = Some e →
  e_hash e = hashed calculateHash old c.
Proof.
  rewrite pushed_task. unfold stale, hashed.
  intros [[Hst H]|(_ & v & _ & ->)]; [|done].
  rewrite H in Hst |- *.
  by destruct (decide (calculateHash (cell_source c) = e_hash e)).
Qed.

Lemma pushed_task_hash oe old c e :
  unedited c →
  pushed (task calculateHash oe old c) = Some e →
  e_hash e = calculateHash (cell_source c).
Proof.
  intros Hc Hp. rewrite <-(hashed_unedited old) by done.
  by eapply pushed_task_hashed.
Qed.

Lemma requested_task oe old c :
  requested (task calculateHash oe old c) =
    if decide (stale calculateHash old c) then [sent old c] else [].
Proof.
  rewrite task_cases.
  destruct (decide (stale calculateHash old c)) as [Hst|Hst];
    unfold stale in Hst; unfold sent; destruct (cached old c) as [x|];
    try case_decide; try done; unfold recompute; by destruct (oe _).
Qed.

Lemma outcome_new oe old cells path r :
  createEmbeddings_outcome calculateHash oe old cells path r →
  r_newEmbeddingsArray r ≡ₚ omap pushed (tasks calculateHash oe old cells).
Proof. by intros [arr Harr]. Qed.

Lemma outcome_saved oe old cells path r :
  createEmbeddings_outcome calculateHash oe old cells path r →
  r_saved r =
    if isSetsEqual (list_to_set (e_hash <$> old))
         (list_to_set (e_hash <$> r_newEmbeddingsArray r))
    then None else Some (path, r_newEmbeddingsArray r).
Proof. by intros [arr Harr]. Qed.

Lemma outcome_requested oe old cells path r :
  createEmbeddings_outcome calculateHash oe old cells path r →
  r_requested r = mjoin (requested <$> tasks calculateHash oe old cells).
Proof. by intros [arr Harr]. Qed.

Lemma outcome_logged oe old cells path r :
  createEmbeddings_outcome calculateHash oe old cells path r →
  r_logged r = mjoin (logged <$> tasks calculateHash oe old cells).
Proof. by intros [arr Harr]. Qed.

Lemma createEmbeddings_is_outcome oe old cells path :
  createEmbeddings_outcome calculateHash oe old cells path
    (createEmbeddings calculateHash oe old cells path).
Proof. by constructor. Qed.

Lemma elem_of_tasks oe old cells t :
  t ∈ tasks calculateHash oe old cells ↔
  ∃ c, c ∈ cells ∧ trim (cell_source c) ≠ [] ∧
       t = task calculateHash oe old c.
Proof.
  unfold tasks. rewrite list_elem_of_fmap.
  setoid_rewrite list_elem_of_filter. naive_solver.
Qed.

Lemma elem_of_new oe old cells path r e :
  createEmbeddings_outcome calculateHash oe old cells path r →
  e ∈ r_newEmbeddingsArray r ↔
  ∃ c, c ∈ cells ∧ trim (cell_source c) ≠ [] ∧
       pushed (task calculateHash oe old c) = Some e.
Proof.
  intros Hr. rewrite (outcome_new _ _ _ _ _ Hr), list_elem_of_omap.
  setoid_rewrite elem_of_tasks. naive_solver.
Qed.

Lemma new_ids_are_cell_ids oe old cells path r cellId :
  createEmbeddings_outcome calculateHash oe old cells path r →
  cellId ∈ e_id <$> r_newEmbeddingsArray r → cellId ∈ cell_id <$> cells.
Proof.
  intros Hr (e & -> & He)%list_elem_of_fmap.
  apply (elem_of_new _ _ _ _ _ _ Hr) in He as (c & Hc & _ & Hp).
  apply pushed_task_id in Hp as ->. by apply list_elem_of_fmap_2.
Qed.

Lemma saved_content oe old cells path r p content :
  createEmbeddings_outcome calculateHash oe old cells path r →
  r_saved r = Some (p, content) →
  p = path ∧ content = r_newEmbeddingsArray r.
Proof.
  intros Hr. rewrite (outcome_saved _ _ _ _ _ Hr).
  destruct (isSetsEqual _ _); naive_solver.
Qed.

Lemma new_hash_is_saved oe old cells path r e :
  createEmbeddings_outcome calculateHash oe old cells path r →
  e ∈ r_newEmbeddingsArray r →
  e_hash e ∉ e_hash <$> old →
  r_saved r = Some (path, r_newEmbeddingsArray r).
Proof.
  intros Hr He Hnew. rewrite (outcome_saved _ _ _ _ _ Hr).
  unfold isSetsEqual. rewrite bool_decide_eq_false_2; [done|].
  intros Heq. apply Hnew. apply (elem_of_list_to_set (C:=gset jsstring)).
  rewrite Heq. apply elem_of_list_to_set, list_elem_of_fmap. eauto.
Qed.

Lemma old_hash_is_saved oe old cells path r e :
  createEmbeddings_outcome calculateHash oe old cells path r →
  e ∈ old →
  e_hash e ∉ e_hash <$> r_newEmbeddingsArray r →
  r_saved r = Some (path, r_newEmbeddingsArray r).
Proof.
  intros Hr He Hnew. rewrite (outcome_saved _ _ _ _ _ Hr).
  unfold isSetsEqual. rewrite bool_decide_eq_false_2; [done|].
  intros Heq. apply Hnew. apply (elem_of_list_to_set (C:=gset jsstring)).
  rewrite <-Heq. apply elem_of_list_to_set, list_elem_of_fmap. eauto.
Qed.

(** C6. A cell id that the store has and the cell list passed to a
    refresh lacks has no entry in the array the refresh produces, nor in
    what the refresh writes to the file. The refresh writes, and the
    file loses the id, when an entry read from the file has a hash that
    no entry of the new array has; when nothing is written, the file
    keeps what it held, the entry of that id included. *)
Theorem removed_cell_is_collected oe old cells path r cellId :
  createEmbeddings_outcome calculateHash oe old cells path r →
  cellId ∈ e_id <$> old →
  cellId ∉ cell_id <$> cells →
  (cellId ∉ e_id <$> r_newEmbeddingsArray r) ∧
  (∀ p content,
     r_saved r = Some (p, content) → cellId ∉ (e_id <$> content)) ∧
  (∀ e, e ∈ old → e_hash e ∉ e_hash <$> r_newEmbeddingsArray r →
     r_saved r = Some (path, r_newEmbeddingsArray r) ∧
     cellId ∉ e_id <$> persisted old r) ∧
  (r_saved r = None → cellId ∈ e_id <$> persisted old r).
Proof.
  intros Hr Hold Hgone.
  assert (cellId ∉ e_id <$> r_newEmbeddingsArray r) as Hnew.
  { intros Hin. apply Hgone. by eapply new_ids_are_cell_ids. }
  split_and!; [done| | |].
  - intros p content Hs.
    by apply (saved_content _ _ _ _ _ _ _ Hr) in Hs as [_ ->].
  - intros e He Hhash.
    pose proof (old_hash_is_saved _ _ _ _ _ _ Hr He Hhash) as Hs.
    split; [done|]. unfold persisted. by rewrite Hs.
  - intros Hs. unfold persisted. by rewrite Hs.
Qed.

(** C10. After a round of the refresh loop the [embeddings] snapshot
    handed to ranking is the array that was read from the file, whatever
    the refresh computed; the fresh array only reaches the file, and the
    snapshot of the next round is what the file then holds. *)
Theorem snapshot_is_the_array_read oe cells path h h' embJSON :
  h_file h = Some embJSON →
  getEmbeddings_round calculateHash oe cells path h h' →
  h_embeddings h' = Some embJSON ∧
  (∃ r, createEmbeddings_outcome calculateHash oe embJSON cells path r ∧
        r_embeddings r = embJSON ∧
        h_file h' = Some (persisted embJSON r) ∧
        (∀ e, e ∈ r_newEmbeddingsArray r → e ∉ embJSON →
           ∀ snapshot, h_embeddings h' = Some snapshot → e ∉ snapshot)) ∧
  (∀ oe' cells' h'',
     getEmbeddings_round calculateHash oe' cells' path h' h'' →
     h_embeddings h'' = h_file h').
Proof.
  intros Hfile Hround.
  destruct Hround as [h Hnone|h emb r Hsome Hr]; [congruence|].
  assert (emb = embJSON) as -> by congruence.
  assert (r_embeddings r = embJSON) as Hsnap by by destruct Hr.
  split; [by rewrite <-Hsnap|]. split.
  - exists r. split_and!; [done..| |].
    + simpl. unfold persisted. rewrite Hsome.
      by destruct (r_saved r) as [[? ?]|].
    + intros e _ Hfresh snapshot [= <-]. by rewrite Hsnap.
  - intros oe' cells' h'' Hnext. simpl in *.
    inversion Hnext as [? Hnone|? emb' r' Hsome' Hr']; simplify_eq/=.
    + by destruct (r_saved r) as [[? ?]|]; rewrite ?Hsome in Hnone.
    + rewrite Hsome'. f_equal. by destruct Hr'.
Qed.


Lemma fresh_cells_request_nothing oe old cells :
  (∀ c, c ∈ cells → trim (cell_source c) ≠ [] →
        ¬ stale calculateHash old c) →
  mjoin (requested <$> tasks calculateHash oe old cells) = [].
Proof.
  unfold tasks. induction cells as [|c cells IH]; intros Hfresh; [done|].
  rewrite filter_cons. case_decide as Hc.
  - rewrite !fmap_cons. simpl. rewrite requested_task.
    rewrite decide_False by (apply Hfresh; [left|done]).
    apply IH. intros c' Hc'. apply Hfresh. by right.
  - apply IH. intros c' Hc'. apply Hfresh. by right.
Qed.

Lemma tasks_app oe old cells1 cells2 :
  tasks calculateHash oe old (cells1 ++ cells2) =
  tasks calculateHash oe old cells1 ++ tasks calculateHash oe old cells2.
Proof. unfold tasks. by rewrite filter_app, fmap_app. Qed.

Lemma not_stale_cached old c :
  ¬ stale calculateHash old c →
  ∃ e, cached old c = Some e ∧ e_hash e = calculateHash (cell_source c).
Proof.
  unfold stale. destruct (cached old c) as [e|]; [|done].
  intros Hst. exists e. split; [done|].
  by destruct (decide (calculateHash (cell_source c) = e_hash e)).
Qed.

(** C3. When every non-blank cell but [c] has an entry whose hash is the
    digest of its text and the entry of [c] has another hash, the refresh
    sends only the text of [c] to the provider; every other non-blank
    cell's entry is carried over as it is; the new array holds for [c]
    the entry built from the provider's vector and nothing else with its
    id, so the stale entry of [c] is gone; and when the new digest is
    not in the file yet, the array is written to the file. *)
Theorem only_the_changed_cell_is_recomputed oe old pre c post path r :
  createEmbeddings_outcome calculateHash oe old (pre ++ c :: post) path r →
  NoDup (cell_id <$> pre ++ c :: post) →
  (∀ c', c' ∈ pre ++ post → trim (cell_source c') ≠ [] →
         ¬ stale calculateHash old c') →
  is_Some (cached old c) →
  stale calculateHash old c →
  r_requested r =
    (if decide (trim (cell_source c) ≠ []) then [cell_source1 c] else []) ∧
  (∀ c', c' ∈ pre ++ post → trim (cell_source c') ≠ [] →
     ∃ e, cached old c' = Some e ∧ e ∈ old ∧ e ∈ r_newEmbeddingsArray r) ∧
  (∀ v, trim (cell_source c) ≠ [] → oe (cell_source1 c) = Fulfilled v →
     {| e_id := cell_id c; e_source := cell_source2 c;
        e_hash := calculateHash (cell_source c); e_embedding := v |}
       ∈ r_newEmbeddingsArray r
     ∧ (calculateHash (cell_source c) ∉ e_hash <$> old →
        r_saved r = Some (path, r_newEmbeddingsArray r))) ∧
  (∀ e, e ∈ r_newEmbeddingsArray r →
     if decide (e_id e = cell_id c) then
       ∃ v, oe (cell_source1 c) = Fulfilled v ∧
            e = {| e_id := cell_id c; e_source := cell_source2 c;
                   e_hash := calculateHash (cell_source c);
                   e_embedding := v |}
     else ∃ c', c' ∈ pre ++ post ∧ cached old c' = Some e) ∧
  (∀ e, cached old c = Some e → e ∉ r_newEmbeddingsArray r).
Proof.
  intros Hr Hnd Hfresh [x Hx] Hstale.
  assert (sent old c = cell_source1 c) as Hsent
    by (unfold sent; by rewrite Hx).
  assert (hashed calculateHash old c = calculateHash (cell_source c))
    as Hhashed by (unfold hashed; by rewrite Hx).
  assert (∀ c', c' ∈ pre ++ post → cell_id c' ≠ cell_id c) as Hother.
  { rewrite fmap_app, fmap_cons in Hnd.
    apply NoDup_app in Hnd as (_ & Hd & [Hn _]%NoDup_cons).
    intros c' [Hin|Hin]%elem_of_app Heq.
    - apply (Hd (cell_id c)); [|by left].
      rewrite <-Heq. apply list_elem_of_fmap. eauto.
    - apply Hn. rewrite <-Heq. apply list_elem_of_fmap. eauto. }
  assert (∀ e c', c' ∈ pre ++ c :: post → trim (cell_source c') ≠ [] →
            pushed (task calculateHash oe old c') = Some e →
            if decide (e_id e = cell_id c) then
              ∃ v, oe (cell_source1 c) = Fulfilled v ∧
                   e = newEntry c (calculateHash (cell_source c)) v
            else c' ∈ pre ++ post ∧ cached old c' = Some e) as Hcases.
  { intros e c' Hc' Hne Hp.
    pose proof (pushed_task_id _ _ _ _ Hp) as Hid.
    destruct (decide (c' = c)) as [->|Hc].
    - rewrite decide_True by done.
      apply pushed_task in Hp as [[Hns _]|(_ & v & Hv & ->)]; [done|].
      rewrite Hsent in Hv. rewrite Hhashed. eauto.
    - assert (c' ∈ pre ++ post) as Hin by set_solver.
      rewrite decide_False by (rewrite Hid; by apply Hother).
      split; [done|].
      apply pushed_task in Hp as [[_ He]|(Hst & _)]; [done|].
      by apply Hfresh in Hst. }
  split_and!.
  - rewrite (outcome_requested _ _ _ _ _ Hr).
    rewrite (tasks_app _ _ pre (c :: post)), fmap_app, join_app.
    rewrite fresh_cells_request_nothing
      by (intros c' ?; apply Hfresh; set_solver).
    change (c :: post) with ([c] ++ post).
    rewrite tasks_app, fmap_app, join_app.
    rewrite (fresh_cells_request_nothing _ _ post)
      by (intros c' ?; apply Hfresh; set_solver).
    rewrite app_nil_r. unfold tasks. rewrite filter_cons, filter_nil.
    case_decide; [|done]. simpl.
    by rewrite requested_task, decide_True, app_nil_r, Hsent.
  - intros c' Hc' Hne.
    destruct (not_stale_cached old c') as (e & He & _); [by apply Hfresh|].
    exists e. split_and!; [done|by apply cached_Some in He as [? _]|].
    apply (elem_of_new _ _ _ _ _ _ Hr). exists c'.
    split_and!; [set_solver|done|].
    apply pushed_task. left. split; [by apply Hfresh|done].
  - intros v Hne Hv.
    assert (newEntry c (calculateHash (cell_source c)) v
              ∈ r_newEmbeddingsArray r) as Hin.
    { apply (elem_of_new _ _ _ _ _ _ Hr). exists c.
      split_and!; [set_solver|done|]. apply pushed_task. right.
      split; [done|]. exists v. by rewrite Hsent, Hhashed. }
    split; [exact Hin|]. intros Hnew.
    by eapply new_hash_is_saved.
  - intros e (c' & Hc' & Hne & Hp)%(elem_of_new _ _ _ _ _ _ Hr).
    specialize (Hcases e c' Hc' Hne Hp).
    destruct (decide (e_id e = cell_id c)); [exact Hcases|].
    exists c'. exact Hcases.
  - intros e He (c' & Hc' & Hne & Hp)%(elem_of_new _ _ _ _ _ _ Hr).
    specialize (Hcases e c' Hc' Hne Hp).
    pose proof (cached_Some _ _ _ He) as [_ Hid].
    rewrite decide_True in Hcases by done.
    destruct Hcases as (v & _ & ->).
    unfold stale in Hstale. by rewrite He in Hstale.
Qed.


Lemma cell_id_inj cells c c' :
  NoDup (cell_id <$> cells) → c ∈ cells → c' ∈ cells →
  cell_id c = cell_id c' → c = c'.
Proof.
  induction cells as [|x l IH]; [by intros _ ?%elem_of_nil|].
  rewrite fmap_cons, NoDup_cons, !elem_of_cons.
  intros [Hx Hl] [->|Hc] [->|Hc'] Heq; [done| | |by apply IH].
  - destruct Hx. rewrite Heq. by apply list_elem_of_fmap_2.
  - destruct Hx. rewrite <-Heq. by apply list_elem_of_fmap_2.
Qed.

Lemma omitted_cell_has_no_entry oe old cells path r c :
  NoDup (cell_id <$> cells) →
  createEmbeddings_outcome calculateHash oe old cells path r →
  c ∈ cells →
  pushed (task calculateHash oe old c) = None →
  cell_id c ∉ e_id <$> r_newEmbeddingsArray r.
Proof.
  intros Hnd Hr Hc Hnone (e & Hid & He)%list_elem_of_fmap.
  apply (elem_of_new _ _ _ _ _ _ Hr) in He as (c' & Hc' & _ & Hp).
  pose proof (pushed_task_id _ _ _ _ Hp) as Hid'.
  assert (c' = c) as -> by (eapply cell_id_inj; [done..|congruence]).
  congruence.
Qed.

Lemma stale_cell_is_requested oe old cells path r c :
  createEmbeddings_outcome calculateHash oe old cells path r →
  c ∈ cells → trim (cell_source c) ≠ [] → stale calculateHash old c →
  sent old c ∈ r_requested r.
Proof.
  intros Hr Hc Hne Hst. rewrite (outcome_requested _ _ _ _ _ Hr).
  apply list_elem_of_join. exists [sent old c]. split; [set_solver|].
  apply list_elem_of_fmap. exists (task calculateHash oe old c).
  split; [by rewrite requested_task, decide_True|].
  apply elem_of_tasks. eauto.
Qed.

Lemma failure_is_logged oe old cells path r c err :
  createEmbeddings_outcome calculateHash oe old cells path r →
  c ∈ cells → trim (cell_source c) ≠ [] → stale calculateHash old c →
  oe (sent old c) = Rejected err →
  js "Error generating embedding:" ++ err ∈ r_logged r.
Proof.
  intros Hr Hc Hne Hst Herr. rewrite (outcome_logged _ _ _ _ _ Hr).
  apply list_elem_of_join.
  exists [js "Error generating embedding:" ++ err]. split; [set_solver|].
  apply list_elem_of_fmap. exists (task calculateHash oe old c).
  split; [|apply elem_of_tasks; eauto].
  rewrite task_cases. unfold stale in Hst. unfold sent in Herr.
  unfold recompute.
  destruct (cached old c); [rewrite decide_True by done|]; by rewrite Herr.
Qed.

Lemma persisted_cases oe old cells path r :
  createEmbeddings_outcome calculateHash oe old cells path r →
  persisted old r =
    if isSetsEqual (list_to_set (e_hash <$> old))
         (list_to_set (e_hash <$> r_newEmbeddingsArray r))
    then old else r_newEmbeddingsArray r.
Proof.
  intros Hr. unfold persisted. rewrite (outcome_saved _ _ _ _ _ Hr).
  by destruct (isSetsEqual _ _).
Qed.

(** C5. A refresh is best effort: whatever happens to other cells, the
    new array holds the unchanged entries and, for every cell whose
    request was fulfilled, the entry with the provider's vector, and
    nothing else; a cell whose request was rejected has no entry, has
    its failure logged, and is sent to the provider again by the next
    refresh of what the file then holds. The file holds the new array
    when its set of hashes differs from that of the array read, and the
    array read otherwise. *)
Theorem refresh_is_best_effort oe old cells path r :
  NoDup (cell_id <$> cells) →
  createEmbeddings_outcome calculateHash oe old cells path r →
  (∀ c e, c ∈ cells → trim (cell_source c) ≠ [] →
     ¬ stale calculateHash old c → cached old c = Some e →
     e ∈ r_newEmbeddingsArray r) ∧
  (∀ c v, c ∈ cells → trim (cell_source c) ≠ [] →
     stale calculateHash old c → oe (sent old c) = Fulfilled v →
     {| e_id := cell_id c; e_source := cell_source2 c;
        e_hash := hashed calculateHash old c; e_embedding := v |}
       ∈ r_newEmbeddingsArray r) ∧
  (∀ e, e ∈ r_newEmbeddingsArray r →
     ∃ c, c ∈ cells ∧ trim (cell_source c) ≠ [] ∧
       ((¬ stale calculateHash old c ∧ cached old c = Some e) ∨
        (stale calculateHash old c ∧
         ∃ v, oe (sent old c) = Fulfilled v ∧
              e = {| e_id := cell_id c; e_source := cell_source2 c;
                     e_hash := hashed calculateHash old c;
                     e_embedding := v |}))) ∧
  (∀ c err, c ∈ cells → trim (cell_source c) ≠ [] →
     stale calculateHash old c → oe (sent old c) = Rejected err →
     (cell_id c ∉ e_id <$> r_newEmbeddingsArray r) ∧
     (js "Error generating embedding:" ++ err ∈ r_logged r) ∧
     (∀ oe' r',
        createEmbeddings_outcome calculateHash oe' (persisted old r)
          cells path r' →
        sent (persisted old r) c ∈ r_requested r')) ∧
  persisted old r =
    (if isSetsEqual (list_to_set (e_hash <$> old))
          (list_to_set (e_hash <$> r_newEmbeddingsArray r))
     then old else r_newEmbeddingsArray r).
Proof.
  intros Hnd Hr. split_and!.
  - intros c e Hc Hne Hst He. apply (elem_of_new _ _ _ _ _ _ Hr).
    exists c. split_and!; [done..|]. apply pushed_task. by left.
  - intros c v Hc Hne Hst Hv. apply (elem_of_new _ _ _ _ _ _ Hr).
    exists c. split_and!; [done..|]. apply pushed_task. right. eauto.
  - intros e (c & Hc & Hne & Hp)%(elem_of_new _ _ _ _ _ _ Hr).
    exists c. split_and!; [done..|]. by apply pushed_task.
  - intros c err Hc Hne Hst Herr.
    assert (cell_id c ∉ e_id <$> r_newEmbeddingsArray r) as Habsent.
    { eapply omitted_cell_has_no_entry; [done..|].
      apply pushed_task_None. eauto. }
    split_and!; [done|by eapply failure_is_logged|].
    intros oe' r' Hr'.
    eapply stale_cell_is_requested; [done..|].
    unfold persisted. destruct (r_saved r) as [[p content]|] eqn:Hs; [|done].
    apply (saved_content _ _ _ _ _ _ _ Hr) in Hs as [_ ->].
    unfold stale. by apply cached_None in Habsent as ->.
  - by eapply persisted_cases.
Qed.


Lemma cached_unique l c e :
  e ∈ l → e_id e = cell_id c →
  (∀ x, x ∈ l → e_id x = cell_id c → x = e) →
  cached l c = Some e.
Proof.
  intros He Hid Huniq. unfold cached.
  destruct (list_find_elem_of (λ x, e_id x = cell_id c) l e He Hid)
    as [[i x] Hfind].
  rewrite Hfind. simpl. apply list_find_Some in Hfind as (Hi & Hx & _).
  f_equal. apply Huniq; [by eapply list_elem_of_lookup_2|done].
Qed.

Lemma second_pass_task oe old cells arr c :
  NoDup (cell_id <$> cells) →
  arr ≡ₚ omap pushed (tasks calculateHash oe old cells) →
  c ∈ cells → trim (cell_source c) ≠ [] → unedited c →
  pushed (task calculateHash oe arr c) =
  pushed (task calculateHash oe old c).
Proof.
  intros Hnd Harr Hc Hne Hquiet.
  assert (∀ x, x ∈ arr → e_id x = cell_id c →
               pushed (task calculateHash oe old c) = Some x) as Hown.
  { intros x Hx Hid. rewrite Harr, list_elem_of_omap in Hx.
    destruct Hx as (t & (c' & Hc' & _ & ->)%elem_of_tasks & Hp).
    pose proof (pushed_task_id _ _ _ _ Hp) as Hid'.
    assert (c' = c) as -> by (eapply cell_id_inj; [done..|congruence]).
    done. }
  destruct (pushed (task calculateHash oe old c)) as [e|] eqn:Hp.
  - assert (cached arr c = Some e) as Hcached.
    { apply cached_unique.
      - rewrite Harr, list_elem_of_omap.
        exists (task calculateHash oe old c). split; [|done].
        apply elem_of_tasks. eauto.
      - by eapply pushed_task_id.
      - intros x Hx Hid. specialize (Hown x Hx Hid). congruence. }
    apply pushed_task. left. split; [|done].
    unfold stale. rewrite Hcached.
    pose proof (pushed_task_hash _ _ _ _ Hquiet Hp). intros ?; congruence.
  - apply pushed_task_None in Hp as [_ Herr]. apply pushed_task_None.
    rewrite sent_unedited in Herr |- * by done.
    split; [|done]. unfold stale.
    assert (cached arr c = None) as ->; [|done].
    apply cached_None. intros (x & Hid & Hx)%list_elem_of_fmap.
    by specialize (Hown x Hx (eq_sym Hid)).
Qed.

Lemma second_pass oe old cells arr :
  NoDup (cell_id <$> cells) →
  Forall unedited cells →
  arr ≡ₚ omap pushed (tasks calculateHash oe old cells) →
  omap pushed (tasks calculateHash oe arr cells) =
  omap pushed (tasks calculateHash oe old cells).
Proof.
  intros Hnd Hquiet Harr. rewrite Forall_forall in Hquiet.
  assert (∀ c, c ∈ filter (λ c, trim (cell_source c) ≠ []) cells →
    pushed (task calculateHash oe arr c) =
    pushed (task calculateHash oe old c)) as Hsame.
  { intros c [Hne Hc]%list_elem_of_filter.
    eapply second_pass_task; [done..|]. by apply Hquiet. }
  unfold tasks. revert Hsame.
  generalize (filter (λ c, trim (cell_source c) ≠ []) cells).
  intros l. induction l as [|c l IH]; intros Hsame; [done|].
  csimpl. rewrite Hsame by left.
  rewrite IH; [done|]. intros c' Hc'. apply Hsame. by right.
Qed.

Lemma hash_sets_of_permutation (l1 l2 : list Embedding) :
  l1 ≡ₚ l2 →
  (list_to_set (e_hash <$> l1) : gset jsstring) =
  list_to_set (e_hash <$> l2).
Proof. intros Hp. apply list_to_set_perm_L. by apply fmap_Permutation. Qed.

(** C4. A second refresh of the same cells, none of them edited
    meanwhile, reading what the first left in the file and getting the
    same answers from the provider, writes nothing; and a refresh writes
    only when the hashes of the new array, counted with multiplicity,
    differ from those of the array read. *)
Theorem unchanged_refresh_writes_nothing oe old cells path r1 r2 :
  NoDup (cell_id <$> cells) →
  Forall unedited cells →
  createEmbeddings_outcome calculateHash oe old cells path r1 →
  createEmbeddings_outcome calculateHash oe (persisted old r1) cells path
    r2 →
  r_saved r2 = None ∧
  (is_Some (r_saved r1) →
   ¬ e_hash <$> r_newEmbeddingsArray r1 ≡ₚ e_hash <$> old).
Proof.
  intros Hnd Hquiet Hr1 Hr2. split.
  - rewrite (outcome_saved _ _ _ _ _ Hr2). unfold isSetsEqual.
    rewrite bool_decide_eq_true_2; [done|].
    pose proof (outcome_new _ _ _ _ _ Hr1) as Hnew1.
    pose proof (outcome_new _ _ _ _ _ Hr2) as Hnew2.
    unfold persisted in *.
    destruct (r_saved r1) as [[p content]|] eqn:Hs.
    + apply (saved_content _ _ _ _ _ _ _ Hr1) in Hs as [_ ->].
      rewrite (second_pass _ _ _ _ Hnd Hquiet Hnew1) in Hnew2.
      apply hash_sets_of_permutation. by rewrite Hnew2.
    + rewrite (outcome_saved _ _ _ _ _ Hr1) in Hs. unfold isSetsEqual in Hs.
      case_bool_decide as Heq; [|done]. rewrite Heq.
      apply hash_sets_of_permutation. by rewrite Hnew2.
  - intros [x Hs] Hperm. rewrite (outcome_saved _ _ _ _ _ Hr1) in Hs.
    unfold isSetsEqual in Hs. rewrite bool_decide_eq_true_2 in Hs; [done|].
    by rewrite Hperm.
Qed.

End CacheFacts.

Lemma getEmbeddings_is_round calculateHash oe cells path h :
  getEmbeddings_round calculateHash oe cells path h
    (getEmbeddings calculateHash oe cells path h).
Proof.
  unfold getEmbeddings. destruct (h_file h) as [embJSON|] eqn:Hfile.
  - rewrite <-Hfile. apply round_refresh with embJSON; [done|].
    by constructor.
  - by constructor.
Qed.

Section CacheWitnesses.
Import Scenarios.

Lemma only_the_changed_cell_is_recomputed_witness :
  r_requested
    (createEmbeddings digest provider stored [cellA; cellB] embeddingsPath)
  = [js "y = 2"].
Proof.
  refine (proj1 (only_the_changed_cell_is_recomputed digest provider stored
                   [cellA] cellB [] embeddingsPath _ _ _ _ _ _)).
  - constructor. reflexivity.
  - apply (bool_decide_unpack _). vm_compute. exact I.
  - intros c' Hc' _. apply list_elem_of_singleton in Hc' as ->.
    apply (bool_decide_unpack _). vm_compute. exact I.
  - vm_compute. eexists. reflexivity.
  - apply (bool_decide_unpack _). vm_compute. exact I.
Defined.

Lemma removed_cell_is_collected_witness :
  js "z" ∉ e_id <$> r_newEmbeddingsArray
    (createEmbeddings digest provider stored [cellA; cellB] embeddingsPath).
Proof.
  refine (proj1 (removed_cell_is_collected digest provider stored
                   [cellA; cellB] embeddingsPath _ (js "z") _ _ _)).
  - constructor. reflexivity.
  - apply (bool_decide_unpack _). vm_compute. exact I.
  - apply (bool_decide_unpack _). vm_compute. exact I.
Defined.

(** Cell b had the same text as cell a and is removed: the set of
    hashes stays the same, nothing is written, and the file and the next
    snapshot keep the entry of b. *)
Lemma removed_twin_stays_in_the_store :
  (js "b" ∈ e_id <$> twins) ∧
  (js "b" ∉ cell_id <$> [cellA]) ∧
  r_saved (createEmbeddings digest provider twins [cellA] embeddingsPath)
  = None ∧
  h_file
    (getEmbeddings digest provider [cellA] embeddingsPath
       {| h_file := Some twins; h_embeddings := None |})
  = Some twins.
Proof.
  split_and!.
  - apply (bool_decide_unpack _). vm_compute. exact I.
  - apply (bool_decide_unpack _). vm_compute. exact I.
  - vm_compute. reflexivity.
  - vm_compute. reflexivity.
Qed.

(** Cells a and b swap their texts: both are recomputed, the set of
    hashes stays the same, nothing is written, and the file keeps the
    entries computed for the old texts. *)
Lemma swapped_texts_are_not_stored :
  let r := createEmbeddings digest provider pair swapped embeddingsPath in
  r_requested r = [js "y = 1"; js "x = 1"] ∧
  r_logged r = [] ∧
  r_newEmbeddingsArray r
  = [entryOf (js "a") (js "y = 1"); entryOf (js "b") (js "x = 1")] ∧
  r_saved r = None ∧
  e_source <$> persisted pair r = [js "x = 1"; js "y = 1"].
Proof. split_and!; vm_compute; reflexivity. Qed.

Lemma refresh_is_best_effort_witness :
  js "c" ∉ e_id <$> r_newEmbeddingsArray
    (createEmbeddings digest provider stored [cellA; cellB; cellC]
       embeddingsPath).
Proof.
  refine (proj1 (proj1 (proj2 (proj2 (proj2 (refresh_is_best_effort digest
            provider stored [cellA; cellB; cellC] embeddingsPath _ _ _))))
            cellC (js "429") _ _ _ _)).
  - apply (bool_decide_unpack _). vm_compute. exact I.
  - constructor. reflexivity.
  - apply (bool_decide_unpack _). vm_compute. exact I.
  - apply (bool_decide_unpack _). vm_compute. exact I.
  - apply (bool_decide_unpack _). vm_compute. exact I.
  - reflexivity.
Defined.

Lemma unchanged_refresh_writes_nothing_witness :
  r_saved
    (createEmbeddings digest provider
       (persisted stored
          (createEmbeddings digest provider stored [cellA; cellB; cellC]
             embeddingsPath))
       [cellA; cellB; cellC] embeddingsPath)
  = None.
Proof.
  refine (proj1 (unchanged_refresh_writes_nothing digest provider stored
                   [cellA; cellB; cellC] embeddingsPath _ _ _ _ _ _)).
  - apply (bool_decide_unpack _). vm_compute. exact I.
  - apply (bool_decide_unpack _). vm_compute. exact I.
  - constructor. reflexivity.
  - constructor. reflexivity.
Defined.

(** The comparison is on sets: removing one of two cells with the same
    text changes the array but not its set of hashes, and nothing is
    written. *)
Example equal_hash_sets_skip_the_write :
  let r := createEmbeddings digest provider twins [cellA] embeddingsPath in
  r_newEmbeddingsArray r = [entryOf (js "a") (js "x = 1")] ∧
  r_saved r = None.
Proof. split; vm_compute; reflexivity. Qed.

Lemma snapshot_is_the_array_read_witness :
  h_embeddings
    (getEmbeddings digest provider [cellA; cellB; cellC] embeddingsPath disk)
  = Some stored.
Proof.
  refine (proj1 (snapshot_is_the_array_read digest provider
                   [cellA; cellB; cellC] embeddingsPath disk _ stored _ _)).
  - reflexivity.
  - apply round_refresh with stored; [reflexivity|].
    constructor. reflexivity.
Defined.

End CacheWitnesses.

(** ** The ranker *)

Module RankerFacts.
Import Ranker Scenarios.

Lemma insertByScore_Permutation x l : insertByScore x l ≡ₚ x :: l.
Proof.
  induction l as [|y l IH]; [done|]. simpl. case_decide; [|done].
  rewrite IH. apply Permutation_swap.
Qed.

Lemma sortByScore_Permutation l : sortByScore l ≡ₚ l.
Proof.
  induction l as [|x l IH]; [done|]. simpl.
  by rewrite insertByScore_Permutation, IH.
Qed.

Lemma length_sortByScore l : length (sortByScore l) = length l.
Proof. by rewrite sortByScore_Permutation. Qed.

Lemma insertByScore_sorted x l :
  StronglySorted beats l → StronglySorted beats (insertByScore x l).
Proof.
  induction 1 as [|y l Hl IH Hy]; simpl.
  - repeat constructor.
  - case_decide as Hlt.
    + constructor; [done|]. rewrite insertByScore_Permutation.
      constructor; [unfold beats; lra|done].
    + constructor; [by constructor|].
      constructor; [unfold beats; lra|].
      eapply Forall_impl; [done|]. unfold beats. intros z ?. lra.
Qed.

Lemma sortByScore_sorted l : StronglySorted beats (sortByScore l).
Proof.
  induction l as [|x l IH]; [constructor|]. by apply insertByScore_sorted.
Qed.

Lemma insertByScore_stable s x l :
  filter (λ r, rk_score r = s) (insertByScore x l) =
  filter (λ r, rk_score r = s) (x :: l).
Proof.
  induction l as [|y l IH]; [done|]. simpl. case_decide as Hlt; [|done].
  rewrite filter_cons, IH, !filter_cons.
  repeat case_decide; try done. lra.
Qed.

Lemma sortByScore_stable s l :
  filter (λ r, rk_score r = s) (sortByScore l) = filter (λ r, rk_score r = s) l.
Proof.
  induction l as [|x l IH]; [done|]. simpl.
  by rewrite insertByScore_stable, !filter_cons, IH.
Qed.


Lemma StronglySorted_take {A} (R : relation A) n (l : list A) :
  StronglySorted R l → StronglySorted R (take n l).
Proof.
  rewrite <-(take_drop n l) at 1. apply StronglySorted_app_1_l.
Qed.

Lemma StronglySorted_take_drop {A} (R : relation A) n (l : list A) a b :
  StronglySorted R l → a ∈ take n l → b ∈ drop n l → R a b.
Proof.
  rewrite <-(take_drop n l) at 1. apply StronglySorted_app_1_elem_of.
Qed.

Lemma filter_take_prefix {A} (P : A → Prop) `{!∀ x, Decision (P x)} n
    (l : list A) :
  filter P (take n l) `prefix_of` filter P l.
Proof.
  rewrite <-(take_drop n l) at 2. rewrite filter_app. by apply prefix_app_r.
Qed.

Lemma norm_unit_x : norm [1; 0]%R = 1%R.
Proof.
  unfold norm, dot. simpl.
  replace (1 * 1 + (0 * 0 + 0))%R with 1%R by lra. apply sqrt_1.
Qed.

Lemma norm_unit_y : norm [0; 1]%R = 1%R.
Proof.
  unfold norm, dot. simpl.
  replace (0 * 0 + (1 * 1 + 0))%R with 1%R by lra. apply sqrt_1.
Qed.

Lemma norm_vc : (9 / 10 < norm [9 / 10; 1 / 10])%R.
Proof.
  unfold norm, dot. simpl.
  rewrite <-(sqrt_square (9 / 10)) at 1 by lra.
  apply sqrt_lt_1_alt. lra.
Qed.

Lemma score_va : cosineSimilarity [1; 0]%R (e_embedding va) = 1%R.
Proof.
  unfold cosineSimilarity. simpl. rewrite norm_unit_x.
  rewrite decide_False by (intros [?|?]; lra).
  unfold dot. simpl. lra.
Qed.

Lemma score_vb : cosineSimilarity [1; 0]%R (e_embedding vb) = 0%R.
Proof.
  unfold cosineSimilarity. simpl. rewrite norm_unit_x, norm_unit_y.
  rewrite decide_False by (intros [?|?]; lra).
  unfold dot. simpl. lra.
Qed.

Lemma score_vc :
  (0 < cosineSimilarity [1; 0]%R (e_embedding vc) < 1)%R.
Proof.
  unfold cosineSimilarity. simpl. rewrite norm_unit_x.
  pose proof norm_vc as Hn.
  rewrite decide_False by (intros [?|?]; lra).
  replace (dot [1; 0] [9 / 10; 1 / 10])%R with (9 / 10)%R
    by (unfold dot; simpl; lra).
  rewrite Rmult_1_l. split.
  - apply Rdiv_lt_0_compat; lra.
  - apply (Rmult_lt_reg_r (norm [9 / 10; 1 / 10]%R)); [lra|].
    unfold Rdiv. rewrite Rmult_assoc, Rinv_l by lra. lra.
Qed.

Lemma topK_example :
  rk_id <$> topK [1; 0]%R [va; vb; vc] 2 None = [js "a"; js "c"].
Proof.
  pose proof score_va as Ha. pose proof score_vb as Hb.
  pose proof score_vc as Hc.
  unfold topK, eligible. rewrite !filter_cons, filter_nil. simpl.
  simpl in Ha, Hb, Hc.
  rewrite decide_True by lra. simpl.
  rewrite decide_False by lra. done.
Qed.


Lemma elem_of_ranked queryVector store excludeId r :
  r ∈ rank queryVector <$> eligible store excludeId →
  Some (rk_id r) ≠ excludeId.
Proof.
  intros (e & -> & [He _]%list_elem_of_filter)%list_elem_of_fmap. done.
Qed.

(** C7. [topK] returns [min K n] of the [n] eligible entries, none with
    the excluded id, in descending order of cosine similarity; what it
    leaves out scores no higher than what it returns; entries of equal
    score come in store order, earliest first; and on a=[1,0], b=[0,1],
    c=[0.9,0.1] with query [1,0] and K=2 it returns a then c. *)
Theorem topK_returns_the_best queryVector store K excludeId :
  let ranked := rank queryVector <$> eligible store excludeId in
  let result := topK queryVector store K excludeId in
  length result = min K (length ranked) ∧
  (length ranked ≤ K → result ≡ₚ ranked) ∧
  (∀ r, r ∈ result → r ∈ ranked ∧ Some (rk_id r) ≠ excludeId) ∧
  StronglySorted beats result ∧
  (∃ rest, result ++ rest ≡ₚ ranked ∧
     ∀ a b, a ∈ result → b ∈ rest → beats a b) ∧
  (∀ s, filter (λ r, rk_score r = s) result
          `prefix_of` filter (λ r, rk_score r = s) ranked) ∧
  rk_id <$> topK [1; 0]%R [va; vb; vc] 2 None = [js "a"; js "c"].
Proof.
  intros ranked result. unfold result, topK. fold ranked. split_and!.
  - by rewrite length_take, length_sortByScore.
  - intros Hfew. rewrite take_ge by (rewrite length_sortByScore; lia).
    apply sortByScore_Permutation.
  - intros r Hr. assert (r ∈ ranked) as Hin.
    { rewrite <-(sortByScore_Permutation ranked). by eapply subseteq_take. }
    split; [done|]. by eapply elem_of_ranked.
  - apply StronglySorted_take, sortByScore_sorted.
  - exists (drop K (sortByScore ranked)). split.
    + by rewrite take_drop, sortByScore_Permutation.
    + intros a b. apply StronglySorted_take_drop, sortByScore_sorted.
  - intros s. rewrite <-(sortByScore_stable s ranked). apply filter_take_prefix.
  - apply topK_example.
Qed.

End RankerFacts.

(** ** The streaming apply engine *)

Module StreamingFacts.
Import StreamingApply.

Lemma deliver_terminal s sig : status s ≠ Active → deliver s sig = s.
Proof. unfold deliver. by destruct (status s). Qed.

Lemma run_terminal s sigs : status s ≠ Active → run s sigs = s.
Proof.
  intros Hs. unfold run. induction sigs as [|sig sigs IH]; [done|].
  simpl. by rewrite deliver_terminal.
Qed.

Lemma deliver_Cancel s :
  status s = Active →
  status (deliver s Cancel) = Cancelled ∧
  proposedCode (deliver s Cancel) = proposedCode s ∧
  notices (deliver s Cancel) = notices s.
Proof. unfold deliver. by intros ->. Qed.

(** C1. Whatever is delivered to a Cancelled session, chunks included,
    leaves its proposed code, its notices and its status as they are;
    for a session cancelled while Active they are those it had at the
    moment of cancellation. *)
Theorem cancelled_session_discards_chunks s sigs :
  status s = Cancelled →
  status (run s sigs) = Cancelled ∧
  proposedCode (run s sigs) = proposedCode s ∧
  notices (run s sigs) = notices s ∧
  (∀ s0, status s0 = Active → s = deliver s0 Cancel →
     proposedCode (run s0 (Cancel :: sigs)) = proposedCode s0 ∧
     notices (run s0 (Cancel :: sigs)) = notices s0).
Proof.
  intros Hs. rewrite run_terminal by congruence. split_and!; [done..|].
  intros s0 Hs0 ->. unfold run. simpl. fold (run (deliver s0 Cancel) sigs).
  rewrite run_terminal by congruence. by apply deliver_Cancel.
Qed.

Lemma cancelled_session_discards_chunks_witness :
  proposedCode
    (run (deliver (start (js "x = 1")) Cancel) [Chunk (js "y"); Exhausted])
  = [].
Proof.
  refine (proj1 (proj2 (cancelled_session_discards_chunks
            (deliver (start (js "x = 1")) Cancel)
            [Chunk (js "y"); Exhausted] _))).
  reflexivity.
Defined.

End StreamingFacts.

(** ** The session controller *)

Module ControllerFacts.
Import Controller Scenarios.

Lemma children_set_children st cell l cell' :
  children (set_children st cell l) cell' =
    if decide (cell = cell') then l else children st cell'.
Proof.
  unfold children, set_children. simpl. case_decide as Heq.
  - subst. by rewrite lookup_insert_eq.
  - by rewrite lookup_insert_ne.
Qed.

Lemma children_emit st es cell : children (emit st es) cell = children st cell.
Proof. done. Qed.

Lemma children_set_created st n cell :
  children (set_created st n) cell = children st cell.
Proof. done. Qed.

Lemma containerKeys_removeStatusElements l :
  containerKeys (removeStatusElements l) = containerKeys l.
Proof.
  unfold containerKeys, removeStatusElements. f_equal.
  induction l as [|[k t|k i d] l IH]; [done|..];
    rewrite !filter_cons; simpl; repeat case_decide; try done.
  by rewrite filter_cons, decide_True, IH.
Qed.

Lemma containerKeys_existing l i existingDiv :
  list_find (λ e, isParentContainer e) l = Some (i, existingDiv) →
  containerKeys l = key existingDiv :: containerKeys (delete i l).
Proof.
  unfold containerKeys. revert i.
  induction l as [|e l IH]; intros i; [done|]. simpl.
  rewrite filter_cons. case_decide as He.
  - intros [= <- <-]. done.
  - destruct (list_find _ l) as [[j x]|] eqn:Hfind; [|done].
    intros [= <- <-]. simpl. specialize (IH j eq_refl).
    by rewrite filter_cons, decide_False.
Qed.

Lemma containerKeys_none l :
  list_find (λ e, isParentContainer e) l = None → containerKeys l = [].
Proof.
  intros Hnone%list_find_None. unfold containerKeys.
  induction Hnone as [|e l He _ IH]; [done|].
  by rewrite filter_cons, decide_False.
Qed.

Lemma containerKeys_app l1 l2 :
  containerKeys (l1 ++ l2) = containerKeys l1 ++ containerKeys l2.
Proof. unfold containerKeys. by rewrite filter_app, fmap_app. Qed.

Lemma containerKeys_removeChild k l :
  containerKeys (removeChild k l) = filter (λ k', k' ≠ k) (containerKeys l).
Proof.
  unfold containerKeys, removeChild.
  induction l as [|e l IH]; [done|].
  rewrite !filter_cons. repeat case_decide; csimpl;
    rewrite ?filter_cons; repeat case_decide; csimpl; try done;
    by rewrite <-IH.
Qed.

Lemma containerKeys_fmap f l :
  (∀ e, isParentContainer (f e) = isParentContainer e ∧ key (f e) = key e) →
  containerKeys (f <$> l) = containerKeys l.
Proof.
  intros Hf. unfold containerKeys. induction l as [|e l IH]; [done|].
  csimpl. rewrite !filter_cons. destruct (Hf e) as [Hp Hk].
  rewrite Hp. case_decide; csimpl; by rewrite ?Hk, IH.
Qed.

Lemma set_textContent_shape k text e :
  isParentContainer (set_textContent k text e) = isParentContainer e ∧
  key (set_textContent k text e) = key e.
Proof. destruct e; simpl; [case_decide; by subst|done]. Qed.

Lemma remove_inputContainer_shape k e :
  isParentContainer (remove_inputContainer k e) = isParentContainer e ∧
  key (remove_inputContainer k e) = key e.
Proof. destruct e; simpl; [done|case_decide; by subst]. Qed.

Lemma set_diffEditor_shape k code e :
  isParentContainer (set_diffEditor k code e) = isParentContainer e ∧
  key (set_diffEditor k code e) = key e.
Proof. destruct e; simpl; [done|case_decide; by subst]. Qed.


Lemma execute_found st cell i existingDiv :
  activeCell st = Some cell →
  list_find (λ e, isParentContainer e) (children st cell)
    = Some (i, existingDiv) →
  execute st =
    emit (set_children st cell
            (removeStatusElements (delete i (children st cell))))
      [Capture (js "Remove via Cmd K"); Focus cell].
Proof. unfold execute. by intros -> ->. Qed.

Lemma execute_none st cell :
  activeCell st = Some cell →
  list_find (λ e, isParentContainer e) (children st cell) = None →
  execute st =
    set_created
      (set_children st cell
         (children st cell
            ++ [StatusElement (created st) [];
                ParentContainer (S (created st)) true None]))
      (S (S (created st))).
Proof. unfold execute. by intros -> ->. Qed.

Lemma containers_nil_find st cell :
  containers st cell = [] ↔
  list_find (λ e, isParentContainer e) (children st cell) = None.
Proof.
  split; [|apply containerKeys_none]. unfold containers.
  destruct (list_find _ _) as [[i e]|] eqn:Hfind; [|done].
  by rewrite (containerKeys_existing _ _ _ Hfind).
Qed.

Lemma containers_execute st cell :
  containers (execute st) cell =
    match activeCell st with
    | Some active =>
        if decide (active = cell) then
          match containers st cell with
          | [] => [S (created st)]
          | _ :: rest => rest
          end
        else containers st cell
    | None => containers st cell
    end.
Proof.
  destruct (activeCell st) as [active|] eqn:Hactive;
    [|by unfold execute; rewrite Hactive].
  destruct (list_find (λ e, isParentContainer e) (children st active))
    as [[i e]|] eqn:Hfind.
  - rewrite (execute_found _ _ _ _ Hactive Hfind). unfold containers.
    rewrite children_emit, children_set_children.
    case_decide as Heq; [subst|done].
    rewrite (containerKeys_existing _ _ _ Hfind).
    apply containerKeys_removeStatusElements.
  - rewrite (execute_none _ _ Hactive Hfind). unfold containers.
    rewrite children_set_created, children_set_children.
    case_decide as Heq; [subst|done].
    rewrite containerKeys_app, (containerKeys_none _ Hfind). done.
Qed.

Lemma containers_removeHandler st cell k cell' :
  length (containers (removeHandler st cell k) cell') ≤
  length (containers st cell').
Proof.
  unfold removeHandler. rewrite children_emit.
  destruct (attached k (children st cell)); [|done]. unfold containers.
  rewrite children_emit, children_set_children, children_emit.
  case_decide; [subst|done].
  rewrite containerKeys_removeStatusElements, containerKeys_removeChild.
  apply length_filter.
Qed.

Lemma containers_handleSubmit_begin st cell k s cell' :
  containers (handleSubmit_begin st cell k s) cell' = containers st cell'.
Proof.
  unfold handleSubmit_begin. case_bool_decide; [|done]. unfold containers.
  rewrite children_set_children. case_decide; [subst|done].
  rewrite containerKeys_fmap by apply set_textContent_shape.
  apply containerKeys_fmap, remove_inputContainer_shape.
Qed.

Lemma containers_handleSubmit_resume st retrieval cell k old input sel cell' :
  length (containers (handleSubmit_resume st retrieval cell k old input sel)
            cell') ≤
  length (containers st cell').
Proof.
  unfold handleSubmit_resume, containers. destruct retrieval as [top|err].
  - rewrite children_emit, children_set_children, !children_emit.
    case_decide; [subst|done].
    by rewrite containerKeys_fmap by apply set_diffEditor_shape.
  - rewrite children_set_children. case_decide; [subst|done].
    rewrite containerKeys_removeChild. apply length_filter.
Qed.

Lemma containers_handleSubmit st retrieval cell k s old input processed sel
    cell' :
  length (containers
            (handleSubmit st retrieval cell k s old input processed sel)
            cell') ≤
  length (containers st cell').
Proof.
  unfold handleSubmit. case_bool_decide; [|done]. case_decide.
  - etrans; [apply containers_handleSubmit_resume|].
    by rewrite containers_handleSubmit_begin.
  - by rewrite containers_handleSubmit_begin.
Qed.

Lemma applyChunk_shape k chunk e :
  isParentContainer (applyChunk k chunk e) = isParentContainer e ∧
  key (applyChunk k chunk e) = key e.
Proof.
  destruct e as [|k' i [code|]]; simpl; [done| |done].
  case_decide; by subst.
Qed.

Lemma children_streamChunk st k chunk cell :
  children (streamChunk st k chunk) cell =
  applyChunk k chunk <$> children st cell.
Proof.
  unfold children, streamChunk. simpl. rewrite lookup_fmap.
  by destruct (nodes st !! cell).
Qed.

Lemma containers_streamChunk st k chunk cell :
  containers (streamChunk st k chunk) cell = containers st cell.
Proof.
  unfold containers. rewrite children_streamChunk.
  apply containerKeys_fmap, applyChunk_shape.
Qed.

Lemma step_keeps_one_container st a cell :
  replaceCode a →
  length (containers st cell) ≤ 1 →
  length (containers (step st a) cell) ≤ 1.
Proof.
  destruct a; simpl; try done; intros _ Hone.
  - rewrite containers_execute.
    destruct (activeCell st); [|done]. case_decide; [|done].
    destruct (containers st cell) as [|? [|? ?]]; simpl in *; lia.
  - etrans; [apply containers_removeHandler|done].
  - etrans; [apply containers_handleSubmit|done].
  - by rewrite containers_handleSubmit_begin.
  - etrans; [apply containers_handleSubmit_resume|done].
  - by rewrite containers_streamChunk.
Qed.

Lemma steps_keep_one_container actions st cell :
  Forall replaceCode actions →
  length (containers st cell) ≤ 1 →
  length (containers (foldl step st actions) cell) ≤ 1.
Proof.
  intros Hall. revert st.
  induction Hall as [|a actions Ha _ IH]; intros st Hone; [done|].
  simpl. apply IH. by apply step_keeps_one_container.
Qed.

Lemma streams_app es1 es2 : streams (es1 ++ es2) = streams es1 ++ streams es2.
Proof. apply omap_app. Qed.

(** The replace-code interaction, for comparison: under its actions a
    cell node never holds more than one parent container. *)
Lemma replace_code_keeps_one_container actions cell :
  Forall replaceCode actions →
  length (containers (after actions) cell) ≤ 1.
Proof.
  intros Hactions. apply steps_keep_one_container; [done|].
  unfold containers, children. simpl. rewrite lookup_empty. simpl. lia.
Qed.

(** C2. The claim fails on the fix-error path: after Cmd K and Submit
    on a cell, Fix Error with AI on the same cell appends a second
    container while the first is still under the cell with its diff
    editor, and both have been handed to [openAiStream]. *)
Theorem fix_error_starts_a_second_session :
  let st := after twoSessions in
  containers st (js "cell-1") = [1; 3] ∧
  streams (effects st) = [1; 3] ∧
  activeSessions st (js "cell-1") = [1; 3] ∧
  proposedCode st (js "cell-1") 1 = [[]] ∧
  proposedCode st (js "cell-1") 3 = [[]].
Proof. split_and!; vm_compute; reflexivity. Qed.











End ControllerFacts.
(** * Further properties *)

(** ** The embedding cache *)

Section CacheInvariants.
Variable calculateHash : jsstring → jsstring.
Implicit Types (oe : jsstring → JsResult (list number)).
Implicit Types (old : list Embedding) (cells : list Cell) (c : Cell).

Lemma pushed_ids_sublist oe old (l : list Cell) :
  e_id <$> omap pushed (task calculateHash oe old <$> l)
    `sublist_of` cell_id <$> l.
Proof.
  induction l as [|c l IH]; [done|]. csimpl.
  destruct (pushed (task calculateHash oe old c)) as [e|] eqn:Hp; csimpl.
  - rewrite (pushed_task_id _ _ _ _ _ Hp). by apply sublist_skip.
  - by apply sublist_cons.
Qed.

Lemma written_entry_is_fresh oe old cells arr c e :
  NoDup (cell_id <$> cells) →
  arr ≡ₚ omap pushed (tasks calculateHash oe old cells) →
  c ∈ cells → trim (cell_source c) ≠ [] → unedited c →
  pushed (task calculateHash oe old c) = Some e →
  ¬ stale calculateHash arr c.
Proof.
  intros Hnd Harr Hc Hne Hquiet Hp.
  assert (cached arr c = Some e) as Hcached.
  { apply cached_unique.
    - rewrite Harr, list_elem_of_omap.
      exists (task calculateHash oe old c). split; [|done].
      apply elem_of_tasks. eauto.
    - by eapply pushed_task_id.
    - intros x Hx Hid. rewrite Harr, list_elem_of_omap in Hx.
      destruct Hx as (t & (c' & Hc' & _ & ->)%elem_of_tasks & Hp').
      pose proof (pushed_task_id _ _ _ _ _ Hp') as Hid'.
      assert (c' = c) as -> by (eapply cell_id_inj; [done..|congruence]).
      congruence. }
  unfold stale. rewrite Hcached.
  pose proof (pushed_task_hash _ _ _ _ _ Hquiet Hp). intros ?; congruence.
Qed.

Lemma requested_is_stale oe old cells path r text :
  createEmbeddings_outcome calculateHash oe old cells path r →
  text ∈ r_requested r →
  ∃ c, c ∈ cells ∧ trim (cell_source c) ≠ [] ∧
       stale calculateHash old c ∧ text = sent old c.
Proof.
  intros Hr. rewrite (outcome_requested _ _ _ _ _ _ Hr).
  intros (l & Hin & (t & -> & Ht)%list_elem_of_fmap)%list_elem_of_join.
  apply elem_of_tasks in Ht as (c & Hc & Hne & ->).
  rewrite requested_task in Hin. case_decide; [|by apply elem_of_nil in Hin].
  apply list_elem_of_singleton in Hin. eauto.
Qed.

(** X1. If every entry read from the file carries the digest of the
    text stored with it and no cell is edited while its task runs, so
    does every entry of the array a refresh produces. *)
Theorem refresh_keeps_digests oe old cells path r :
  (∀ e, e ∈ old → e_hash e = calculateHash (e_source e)) →
  Forall unedited cells →
  createEmbeddings_outcome calculateHash oe old cells path r →
  ∀ e, e ∈ r_newEmbeddingsArray r → e_hash e = calculateHash (e_source e).
Proof.
  intros Hold Hquiet Hr e (c & Hc & _ & Hp)%(elem_of_new _ _ _ _ _ _ _ Hr).
  apply pushed_task in Hp as [[_ He]|(_ & v & _ & ->)].
  - apply Hold. by apply cached_Some in He as [? _].
  - rewrite Forall_forall in Hquiet. pose proof (Hquiet c Hc) as Hq.
    simpl. rewrite hashed_unedited by done. by destruct Hq as [_ ->].
Qed.

(** X2. For cells with distinct ids the array a refresh produces has
    distinct ids, whatever the file held, and at most one entry per
    cell. *)
Theorem refresh_ids_are_unique oe old cells path r :
  NoDup (cell_id <$> cells) →
  createEmbeddings_outcome calculateHash oe old cells path r →
  NoDup (e_id <$> r_newEmbeddingsArray r) ∧
  length (r_newEmbeddingsArray r) ≤ length cells.
Proof.
  intros Hnd Hr. pose proof (outcome_new _ _ _ _ _ _ Hr) as Hnew.
  assert (e_id <$> omap pushed (tasks calculateHash oe old cells)
            `sublist_of` cell_id <$> cells) as Hsub.
  { unfold tasks. etrans; [apply pushed_ids_sublist|].
    apply fmap_sublist, sublist_filter. }
  rewrite Hnew. split.
  - by eapply sublist_NoDup.
  - apply sublist_length in Hsub. by rewrite !length_fmap in Hsub.
Qed.

(** X3. A cell whose text is empty or white space is never sent to the
    provider and has no entry in the new array, even if the file had
    one for it: every text requested is the one the task of a non-blank
    stale cell sends, the cell's text when the cell is not edited
    meanwhile. *)
Theorem blank_cells_are_skipped oe old cells path r :
  NoDup (cell_id <$> cells) →
  createEmbeddings_outcome calculateHash oe old cells path r →
  (∀ text, text ∈ r_requested r →
     ∃ c, c ∈ cells ∧ trim (cell_source c) ≠ [] ∧
          stale calculateHash old c ∧ text = sent old c ∧
          (unedited c → text = cell_source c)) ∧
  (∀ c, c ∈ cells → trim (cell_source c) = [] →
     cell_id c ∉ e_id <$> r_newEmbeddingsArray r).
Proof.
  intros Hnd Hr. split.
  - intros text Htext.
    destruct (requested_is_stale oe old cells path r text Hr Htext)
      as (c & Hc & Hne & Hst & ->).
    exists c. split_and!; [done..|]. by apply sent_unedited.
  - intros c Hc Hblank (e & Hid & He)%list_elem_of_fmap.
    apply (elem_of_new _ _ _ _ _ _ _ Hr) in He as (c' & Hc' & Hne & Hp).
    pose proof (pushed_task_id _ _ _ _ _ Hp) as Hid'.
    assert (c' = c) as -> by (eapply cell_id_inj; [done..|congruence]).
    done.
Qed.

(** X4. Once a refresh has written its array, the next refresh of the
    same cells, none of them edited meanwhile, asks the provider only
    for cells whose request the first one saw rejected. *)
Theorem after_a_write_only_failures_are_retried oe oe' old cells path r1 r2 :
  NoDup (cell_id <$> cells) →
  Forall unedited cells →
  createEmbeddings_outcome calculateHash oe old cells path r1 →
  is_Some (r_saved r1) →
  createEmbeddings_outcome calculateHash oe' (persisted old r1) cells path
    r2 →
  ∀ text, text ∈ r_requested r2 →
    ∃ c error, c ∈ cells ∧ text = cell_source c ∧
               oe (cell_source c) = Rejected error.
Proof.
  intros Hnd Hquiet Hr1 [[p content] Hs] Hr2 text Htext.
  rewrite Forall_forall in Hquiet.
  unfold persisted in Hr2. rewrite Hs in Hr2.
  apply (saved_content _ _ _ _ _ _ _ _ Hr1) in Hs as [_ ->].
  destruct (requested_is_stale _ _ _ _ _ _ Hr2 Htext)
    as (c & Hc & Hne & Hst & ->).
  pose proof (Hquiet c Hc) as Hq. rewrite sent_unedited by done.
  destruct (pushed (task calculateHash oe old c)) as [e|] eqn:Hp.
  - exfalso.
    eapply (written_entry_is_fresh oe old cells (r_newEmbeddingsArray r1));
      [done|by eapply outcome_new|done..].
  - apply pushed_task_None in Hp as [_ [error Herr]].
    rewrite sent_unedited in Herr by done. eauto.
Qed.

(** X5. For a notebook without embeddings file the first round of the
    loop only creates the file with an empty array and leaves the
    snapshot alone; the round after it hands ranking the empty array
    and sends the text of every non-blank cell to the provider, in cell
    order. *)
Theorem first_rounds_of_a_new_notebook oe1 oe2 cells1 cells2 path h h1 h2 :
  h_file h = None →
  getEmbeddings_round calculateHash oe1 cells1 path h h1 →
  getEmbeddings_round calculateHash oe2 cells2 path h1 h2 →
  h_file h1 = Some [] ∧
  h_embeddings h1 = h_embeddings h ∧
  h_embeddings h2 = Some [] ∧
  ∃ r, createEmbeddings_outcome calculateHash oe2 [] cells2 path r ∧
       h_file h2 = Some (persisted [] r) ∧
       r_requested r =
         cell_source <$> filter (λ c, trim (cell_source c) ≠ []) cells2.
Proof.
  intros Hnone Hr1 Hr2.
  destruct Hr1 as [h _|h emb r Hsome _]; [|congruence].
  inversion Hr2 as [? Hnone2|? emb r Hsome Hr]; simplify_eq/=.
  split_and!; [done..| |].
  - f_equal. by destruct Hr.
  - exists r. split_and!; [done| |].
    + unfold persisted. by destruct (r_saved r) as [[? ?]|].
    + rewrite (outcome_requested _ _ _ _ _ _ Hr). unfold tasks.
      induction (filter _ cells2) as [|c l IH]; [done|]. csimpl.
      rewrite IH, requested_task. by rewrite decide_True.
Qed.

End CacheInvariants.

Section CacheInvariantWitnesses.
Import Scenarios.

Lemma refresh_keeps_digests_witness :
  Forall (λ e, e_hash e = digest (e_source e))
    (r_newEmbeddingsArray
       (createEmbeddings digest provider stored [cellA; cellB]
          embeddingsPath)).
Proof.
  apply Forall_forall.
  refine (refresh_keeps_digests digest provider stored [cellA; cellB]
            embeddingsPath _ _ _ _).
  - apply Forall_forall. apply (bool_decide_unpack _). vm_compute. exact I.
  - apply (bool_decide_unpack _). vm_compute. exact I.
  - constructor. reflexivity.
Defined.

(** Without that: cell a is edited while the provider answers, and the
    entry pushed for it carries the digest of the text it had before and
    the text it has after. *)
Example edit_during_the_request_breaks_the_digest :
  let r := createEmbeddings digest provider [] [edited] embeddingsPath in
  r_requested r = [js "x = 1"] ∧
  (e_hash <$> r_newEmbeddingsArray r) = [digest (js "x = 1")] ∧
  (e_source <$> r_newEmbeddingsArray r) = [js "x = 12"].
Proof. split_and!; vm_compute; reflexivity. Qed.

Lemma refresh_ids_are_unique_witness :
  NoDup
    (e_id <$> r_newEmbeddingsArray
       (createEmbeddings digest provider stored [cellA; cellB; cellC]
          embeddingsPath)).
Proof.
  refine (proj1 (refresh_ids_are_unique digest provider stored
                   [cellA; cellB; cellC] embeddingsPath _ _ _)).
  - apply (bool_decide_unpack _). vm_compute. exact I.
  - constructor. reflexivity.
Defined.

Lemma blank_cells_are_skipped_witness :
  js "d" ∉ e_id <$> r_newEmbeddingsArray
    (createEmbeddings digest provider
       (stored ++ [entryOf (js "d") (js "  ")])
       [cellA; (quiet (js "d") (js "  "))]
       embeddingsPath).
Proof.
  refine (proj2 (blank_cells_are_skipped digest provider
                   (stored ++ [entryOf (js "d") (js "  ")])
                   [cellA; (quiet (js "d") (js "  "))]
                   embeddingsPath _ _ _)
            (quiet (js "d") (js "  ")) _ _).
  - apply (bool_decide_unpack _). vm_compute. exact I.
  - constructor. reflexivity.
  - apply (bool_decide_unpack _). vm_compute. exact I.
  - reflexivity.
Defined.

Lemma after_a_write_only_failures_are_retried_witness :
  ∃ c error, c ∈ [cellA; cellB; cellC] ∧ js "boom" = cell_source c ∧
             provider (cell_source c) = Rejected error.
Proof.
  refine (after_a_write_only_failures_are_retried digest provider provider
            stored [cellA; cellB; cellC] embeddingsPath
            (createEmbeddings digest provider stored [cellA; cellB; cellC]
               embeddingsPath)
            (createEmbeddings digest provider
               (persisted stored
                  (createEmbeddings digest provider stored
                     [cellA; cellB; cellC] embeddingsPath))
               [cellA; cellB; cellC] embeddingsPath)
            _ _ _ _ _ (js "boom") _).
  - apply (bool_decide_unpack _). vm_compute. exact I.
  - apply (bool_decide_unpack _). vm_compute. exact I.
  - constructor. reflexivity.
  - vm_compute. eexists. reflexivity.
  - constructor. reflexivity.
  - apply (bool_decide_unpack _). vm_compute. exact I.
Defined.

Lemma first_rounds_of_a_new_notebook_witness :
  h_embeddings
    (getEmbeddings digest provider [cellA; cellB] embeddingsPath
       (getEmbeddings digest provider [cellA; cellB] embeddingsPath
          {| h_file := None; h_embeddings := None |}))
  = Some [].
Proof.
  refine (proj1 (proj2 (proj2 (first_rounds_of_a_new_notebook digest
            provider provider [cellA; cellB] [cellA; cellB] embeddingsPath
            {| h_file := None; h_embeddings := None |} _ _ _ _ _)))).
  - reflexivity.
  - apply getEmbeddings_is_round.
  - apply getEmbeddings_is_round.
Defined.

End CacheInvariantWitnesses.

(** ** Strings *)

Module JsStringFacts.
Import JsString.

Lemma startsWith_prefix pat s : startsWith pat s = true ↔ pat `prefix_of` s.
Proof.
  revert s. induction pat as [|p pat IH]; intros s; simpl.
  - split; [intros _; apply prefix_nil|done].
  - destruct s as [|c s]; [split; [done|by intros ?%prefix_nil_not]|].
    rewrite andb_true_iff, N.eqb_eq, IH. split.
    + intros [-> ?]. by apply prefix_cons.
    + intros H. split; [by eapply prefix_cons_inv_1|by eapply prefix_cons_inv_2].
Qed.

Lemma startsWith_app pat s : startsWith pat (pat ++ s) = true.
Proof. apply startsWith_prefix. by apply prefix_app_r. Qed.

Lemma indexOf_Some pat s i :
  indexOf pat s = Some i →
  startsWith pat (drop i s) = true ∧ i ≤ length s.
Proof.
  revert i. induction s as [|c s IH]; intros i; simpl.
  - destruct (startsWith pat []) eqn:Hp; [|done]. intros [= <-]. by split.
  - destruct (startsWith pat (c :: s)) eqn:Hp.
    + intros [= <-]. split; [done|lia].
    + destruct (indexOf pat s) as [j|]; [|done]. intros [= <-].
      destruct (IH j eq_refl). split; [done|lia].
Qed.

Lemma indexOf_None pat s i :
  indexOf pat s = None → i ≤ length s → startsWith pat (drop i s) = false.
Proof.
  revert i. induction s as [|c s IH]; intros i; simpl.
  - destruct (startsWith pat []) eqn:Hp; [done|]. intros _ ?.
    by rewrite drop_nil.
  - destruct (startsWith pat (c :: s)) eqn:Hp; [done|].
    destruct (indexOf pat s) as [j|] eqn:Hj; [done|]. intros _ Hi.
    destruct i as [|i]; [done|]. simpl. apply IH; [done|lia].
Qed.

Lemma indexOf_first pat pre s :
  (∀ j, j < length pre → startsWith pat (drop j (pre ++ s)) = false) →
  startsWith pat s = true →
  indexOf pat (pre ++ s) = Some (length pre).
Proof.
  intros Hpre Hs. induction pre as [|c pre IH]; simpl.
  - destruct s; simpl in *; by rewrite Hs.
  - pose proof (Hpre 0) as H0. simpl in H0. rewrite H0 by lia.
    rewrite IH; [done|].
    intros j Hj. apply (Hpre (S j)). simpl. lia.
Qed.

Lemma includes_false pat s :
  includes pat s = false ↔ indexOf pat s = None.
Proof.
  unfold includes. rewrite bool_decide_eq_false, <-eq_None_not_Some. done.
Qed.

Lemma includes_true pat s :
  includes pat s = true ↔ ∃ a b, s = a ++ pat ++ b.
Proof.
  unfold includes. rewrite bool_decide_eq_true. split.
  - intros [i [Hp Hi]%indexOf_Some].
    apply startsWith_prefix in Hp as [b Hb].
    exists (take i s), b. by rewrite <-Hb, take_drop.
  - intros (a & b & ->). apply not_eq_None_Some. intros Hnone.
    apply (indexOf_None _ _ (length a)) in Hnone;
      [|rewrite length_app; lia].
    by rewrite drop_app_length, startsWith_app in Hnone.
Qed.

(** [replace] with an occurrence that is the first. *)
Lemma replace_first s pat rep pre post :
  s = pre ++ pat ++ post →
  indexOf pat s = Some (length pre) →
  replace s pat rep = pre ++ rep ++ post.
Proof.
  intros -> Hi. unfold replace. rewrite Hi.
  rewrite take_app_length. do 2 f_equal.
  rewrite drop_app_add'. 2: done. by rewrite drop_app_length.
Qed.

(** Splitting and joining with one separator are inverse. *)
Lemma split_not_nil sep s : split sep s ≠ [].
Proof.
  destruct s as [|c s]; simpl; [done|].
  destruct (c =? sep)%N; [done|]. by destruct (split sep s).
Qed.

Lemma join_cons sep piece arr :
  join sep (piece :: arr) = piece ++ mjoin ((sep ++.) <$> arr).
Proof.
  revert piece. induction arr as [|x arr IH]; intros piece.
  - simpl. by rewrite app_nil_r.
  - change (join sep (piece :: x :: arr))
      with (piece ++ sep ++ join sep (x :: arr)).
    rewrite IH. csimpl. by rewrite <-!app_assoc.
Qed.

Lemma join_split sep s : join [sep] (split sep s) = s.
Proof.
  induction s as [|c s IH]; [done|]. simpl.
  pose proof (split_not_nil sep s) as Hne.
  destruct (c =? sep)%N eqn:Hc.
  - apply N.eqb_eq in Hc as ->.
    destruct (split sep s) as [|x l] eqn:Hs; [done|].
    change (join [sep] ([] :: x :: l)) with ([sep] ++ join [sep] (x :: l)).
    by rewrite IH.
  - destruct (split sep s) as [|x l] eqn:Hs; [done|].
    rewrite join_cons in IH |- *. rewrite <-app_comm_cons. by f_equal.
Qed.

End JsStringFacts.

(** ** The path of the embeddings file *)

Module PathsFacts.
Import JsString JsStringFacts Paths.

Lemma ipynb_units : js ".ipynb" = [46; 105; 112; 121; 110; 98]%N.
Proof. reflexivity. Qed.

(** An occurrence of '.ipynb' cannot begin in a text free of it and end
    in a '.ipynb' that follows: the pattern has its only dot in front. *)
Lemma ipynb_first pre post :
  includes (js ".ipynb") pre = false →
  indexOf (js ".ipynb") (pre ++ js ".ipynb" ++ post) = Some (length pre).
Proof.
  intros Hpre. apply indexOf_first; [|apply startsWith_app].
  intros j Hj. rewrite drop_app_le by lia.
  apply includes_false in Hpre.
  pose proof (indexOf_None _ _ j Hpre ltac:(lia)) as Hj'.
  assert (drop j pre ≠ []) as Hne.
  { intros Hnil%(f_equal length). rewrite length_drop in Hnil. simpl in Hnil.
    lia. }
  rewrite ipynb_units in *.
  destruct (drop j pre) as [|c1 [|c2 [|c3 [|c4 [|c5 [|c6 t]]]]]];
    [done|simpl in *..];
    repeat (match goal with
            | |- context [(?a =? ?b)%N] => destruct (a =? b)%N eqn:?
            end; simpl in *; try done);
    repeat match goal with H : (_ =? _)%N = true |- _ =>
             apply N.eqb_eq in H; subst end; try done.
Qed.

Lemma embeddingsPath_first pre post :
  includes (js ".ipynb") pre = false →
  embeddingsPathOf (pre ++ js ".ipynb" ++ post) =
  js "./.embeddings/" ++ pre ++ js "_embeddings.json" ++ post.
Proof.
  intros Hpre. unfold embeddingsPathOf. f_equal.
  by apply replace_first, ipynb_first.
Qed.

(** X6. The first '.ipynb' of the notebook path, wherever it stands, is
    what becomes '_embeddings.json'; a path without '.ipynb' is used as
    it is. *)
Theorem embeddingsPath_replaces_the_first_ipynb pre :
  includes (js ".ipynb") pre = false →
  (∀ post, embeddingsPathOf (pre ++ js ".ipynb" ++ post) =
           js "./.embeddings/" ++ pre ++ js "_embeddings.json" ++ post) ∧
  embeddingsPathOf pre = js "./.embeddings/" ++ pre.
Proof.
  intros Hpre. split; [intros post; by apply embeddingsPath_first|].
  unfold embeddingsPathOf, replace.
  by apply includes_false in Hpre as ->.
Qed.

(** X7. Two notebooks whose names hold '.ipynb' only as their extension
    get different embeddings files. *)
Theorem embeddingsPath_separates_notebooks stem1 stem2 :
  includes (js ".ipynb") stem1 = false →
  includes (js ".ipynb") stem2 = false →
  embeddingsPathOf (stem1 ++ js ".ipynb")
  = embeddingsPathOf (stem2 ++ js ".ipynb") →
  stem1 = stem2.
Proof.
  intros H1 H2.
  rewrite <-(app_nil_r (js ".ipynb")), !embeddingsPath_first by done.
  rewrite !app_nil_r. intros Heq%app_inv_head. by apply app_inv_tail in Heq.
Qed.

Lemma embeddingsPath_replaces_the_first_ipynb_witness :
  embeddingsPathOf (js ".ipynb_checkpoints/nb.ipynb") =
  js "./.embeddings/_embeddings.json_checkpoints/nb.ipynb".
Proof.
  exact (proj1 (embeddingsPath_replaces_the_first_ipynb [] eq_refl)
           (js "_checkpoints/nb.ipynb")).
Defined.

Lemma embeddingsPath_separates_notebooks_witness :
  js "dir/a" = js "dir/a".
Proof.
  apply (embeddingsPath_separates_notebooks (js "dir/a") (js "dir/a"));
    reflexivity.
Defined.

End PathsFacts.

(** ** The traceback *)

Module TracebackFacts.
Import JsString Traceback.

Lemma stripFrom_skip n s :
  n ≤ length s → stripFrom n s = stripFrom 0 (drop n s).
Proof.
  revert n. induction s as [|c s IH]; intros [|n] Hn; simpl in *;
    [done|lia|done|].
  apply IH. lia.
Qed.

Lemma stripFrom_plain pre s :
  27%N ∉ pre → stripFrom 0 (pre ++ s) = pre ++ stripFrom 0 s.
Proof.
  induction pre as [|c pre IH]; intros Hesc; [done|].
  apply not_elem_of_cons in Hesc as [Hc Hpre].
  change (stripFrom 0 ((c :: pre) ++ s))
    with (match escapeSequence (c :: pre ++ s) with
          | Some n => stripFrom (pred n) (pre ++ s)
          | None => c :: stripFrom 0 (pre ++ s)
          end).
  assert (escapeSequence (c :: pre ++ s) = None) as ->.
  { unfold escapeSequence. by repeat case_match; subst. }
  by rewrite IH.
Qed.

Lemma parameters_length s n : parameters s = Some n → 1 ≤ n ≤ length s.
Proof.
  revert n. induction s as [|c s IH]; intros n; simpl; [done|].
  destruct (isDigit c || (c =? 59)%N).
  - destruct (parameters s) as [m|]; [|done]. intros [= <-].
    specialize (IH m eq_refl). lia.
  - destruct (isLetter c); [|done]. intros [= <-]. lia.
Qed.

Lemma parameters_sequence ps final s :
  Forall (λ c, isDigit c || (c =? 59)%N) ps →
  isLetter final →
  parameters (ps ++ final :: s) = Some (S (length ps)).
Proof.
  intros Hps Hfinal. induction Hps as [|c ps Hc _ IH]; simpl.
  - destruct (isDigit final || (final =? 59)%N) eqn:Hd.
    + exfalso. unfold isDigit, isLetter in *.
      apply Is_true_true in Hfinal.
      repeat (rewrite ?orb_true_iff, ?andb_true_iff, ?N.leb_le, ?N.eqb_eq
                in * ); lia.
    + by apply Is_true_true in Hfinal as ->.
  - apply Is_true_true in Hc as ->. by rewrite IH.
Qed.

Lemma stripFrom_sublist n s : stripFrom n s `sublist_of` s.
Proof.
  revert n. induction s as [|c s IH]; intros n; [done|].
  destruct n as [|n]; [|simpl; by apply sublist_cons].
  change (stripFrom 0 (c :: s))
    with (match escapeSequence (c :: s) with
          | Some n => stripFrom (pred n) s
          | None => c :: stripFrom 0 s
          end).
  destruct (escapeSequence (c :: s)).
  - by apply sublist_cons.
  - by apply sublist_skip.
Qed.

(** X8. In text without other escape characters before it, a colour
    sequence (ESC, '[', digits and semicolons, one letter) is cut out
    whole and the scan goes on behind it. *)
Theorem stripAnsi_cuts_a_sequence pre ps final post :
  27%N ∉ pre →
  Forall (λ c, isDigit c || (c =? 59)%N) ps →
  isLetter final →
  stripAnsi (pre ++ [27; 91]%N ++ ps ++ [final] ++ post) =
  pre ++ stripAnsi post.
Proof.
  intros Hpre Hps Hfinal. unfold stripAnsi.
  rewrite stripFrom_plain by done. f_equal.
  change (stripFrom 0 ([27; 91]%N ++ ps ++ [final] ++ post))
    with (match escapeSequence (27%N :: 91%N :: ps ++ final :: post) with
          | Some n => stripFrom (pred n) (91%N :: ps ++ final :: post)
          | None => 27%N :: stripFrom 0 (91%N :: ps ++ final :: post)
          end).
  unfold escapeSequence. rewrite parameters_sequence by done. simpl.
  replace (ps ++ final :: post) with ((ps ++ [final]) ++ post)
    by (by rewrite <-app_assoc).
  replace (S (length ps)) with (length (ps ++ [final]))
    by (rewrite length_app; simpl; lia).
  rewrite stripFrom_skip by (rewrite !length_app; lia).
  by rewrite drop_app_length.
Qed.

(** X9. Stripping only deletes: the result is a subsequence of the text,
    and text without escape character is returned as it is. *)
Theorem stripAnsi_only_deletes s :
  stripAnsi s `sublist_of` s ∧ (27%N ∉ s → stripAnsi s = s).
Proof.
  split; [apply stripFrom_sublist|]. intros Hesc. unfold stripAnsi.
  rewrite <-(app_nil_r s) at 1. rewrite stripFrom_plain by done.
  by rewrite app_nil_r.
Qed.

Lemma parameters_line s rest : parameters (s ++ LF :: rest) = parameters s.
Proof.
  induction s as [|c s IH]; [done|]. simpl. by rewrite IH.
Qed.

Lemma escapeSequence_line s rest :
  escapeSequence (s ++ LF :: rest) = escapeSequence s.
Proof.
  destruct s as [|c1 [|c2 s]]; [done| |].
  - simpl. by repeat case_match.
  - simpl. repeat case_match; try done. by rewrite parameters_line.
Qed.

Lemma escapeSequence_length s n : escapeSequence s = Some n → n ≤ length s.
Proof.
  unfold escapeSequence. repeat case_match; try done.
  destruct (parameters _) as [m|] eqn:Hm; [|done]. intros [= <-].
  apply parameters_length in Hm. simpl. lia.
Qed.

Lemma stripFrom_line n s rest :
  n ≤ length s →
  stripFrom n (s ++ LF :: rest) = stripFrom n s ++ LF :: stripFrom 0 rest.
Proof.
  revert n. induction s as [|c s IH]; intros n Hn.
  - simpl in Hn. by assert (n = 0) as -> by lia.
  - destruct n as [|n]; [|simpl in *; apply IH; lia].
    change (stripFrom 0 ((c :: s) ++ LF :: rest))
      with (match escapeSequence ((c :: s) ++ LF :: rest) with
            | Some n => stripFrom (pred n) (s ++ LF :: rest)
            | None => c :: stripFrom 0 (s ++ LF :: rest)
            end).
    change (stripFrom 0 (c :: s))
      with (match escapeSequence (c :: s) with
            | Some n => stripFrom (pred n) s
            | None => c :: stripFrom 0 s
            end).
    rewrite escapeSequence_line.
    destruct (escapeSequence (c :: s)) as [m|] eqn:Hm.
    + apply IH. apply escapeSequence_length in Hm. simpl in Hm. lia.
    + rewrite IH by lia. done.
Qed.

Lemma stripAnsi_join lines :
  stripAnsi (join [LF] lines) = join [LF] (stripAnsi <$> lines).
Proof.
  induction lines as [|x [|y lines] IH]; [done..|].
  change (join [LF] (x :: y :: lines))
    with (x ++ LF :: join [LF] (y :: lines)).
  change (join [LF] (stripAnsi <$> x :: y :: lines))
    with (stripAnsi x ++ LF :: join [LF] (stripAnsi <$> y :: lines)).
  unfold stripAnsi in *. rewrite stripFrom_line by lia.
  by rewrite IH.
Qed.

(** X10. The traceback handed to the prompt is never missing: without
    traceback, or with an empty one, it is 'No traceback found'; an
    array of lines becomes the lines, each without its colour
    sequences, joined by line feeds; a non-empty string is passed on as
    it is, colour sequences included. *)
Theorem normalize_traceback traceback :
  match traceback with
  | Undefined | Text [] => normalize traceback = js "No traceback found"
  | Lines lines => normalize traceback = join [LF] (stripAnsi <$> lines)
  | Text s | Object s => normalize traceback = s
  end.
Proof.
  destruct traceback as [|[|c s]|lines|s]; try done. apply stripAnsi_join.
Qed.

Lemma stripAnsi_cuts_a_sequence_witness :
  stripAnsi (js "Name" ++ [27; 91; 48; 59; 51; 49; 109]%N ++ js "Error") =
  js "NameError".
Proof.
  exact (stripAnsi_cuts_a_sequence (js "Name") [48; 59; 51; 49]%N 109%N
           (js "Error")
           ltac:(apply (bool_decide_unpack _); vm_compute; exact I)
           ltac:(apply (bool_decide_unpack _); vm_compute; exact I)
           ltac:(vm_compute; exact I)).
Defined.

Lemma stripAnsi_only_deletes_witness :
  stripAnsi (js "NameError") = js "NameError".
Proof.
  refine (proj2 (stripAnsi_only_deletes (js "NameError")) _).
  apply (bool_decide_unpack _). vm_compute. exact I.
Defined.

End TracebackFacts.

(** ** The selected code *)

Module SelectionFacts.
Import JsString JsStringFacts Selection.

Lemma substring_0 s to : substring s 0 to = take to s.
Proof.
  unfold substring. simpl. rewrite Nat.sub_0_r, drop_0.
  destruct (decide (to ≤ length s)).
  - by rewrite Nat.min_l by done.
  - rewrite Nat.min_r by lia. by rewrite !take_ge by lia.
Qed.

Lemma substringFrom_drop s from : substringFrom s from = drop from s.
Proof.
  unfold substringFrom. destruct (decide (from ≤ length s)).
  - by rewrite Nat.min_l.
  - rewrite Nat.min_r by lia. by rewrite !drop_ge by lia.
Qed.

Lemma substring_all s : substring s 0 (length s) = s.
Proof. by rewrite substring_0, take_ge. Qed.

Lemma fmap_seq_lookup {A B} (f : A → B) (g : nat → B) (l : list A) a n :
  a + n ≤ length l →
  (∀ i x, a ≤ i < a + n → l !! i = Some x → g i = f x) →
  g <$> seq a n = f <$> take n (drop a l).
Proof.
  revert a l. induction n as [|n IH]; intros a l Hlen Hg; [done|].
  destruct (lookup_lt_is_Some_2 l a) as [x Hx]; [lia|].
  rewrite (drop_S _ _ _ Hx). csimpl. f_equal.
  - apply Hg; [lia|done].
  - apply IH; [lia|]. intros i y Hi. apply Hg. lia.
Qed.

(** X11. Nothing is selected, and the selected code is the empty
    string, without selection, for a collapsed selection, and for a
    selection whose start line lies behind its end line. *)
Theorem getSelectedCode_nothing selection cellCode :
  match selection with
  | Some sel =>
      sel_start sel = sel_end sel ∨
      line (sel_end sel) < line (sel_start sel)
  | None => True
  end →
  getSelectedCode selection cellCode = [].
Proof.
  unfold getSelectedCode. destruct selection as [sel|]; [|done].
  intros [Heq|Hlt].
  - rewrite Heq. by rewrite decide_False by naive_solver.
  - rewrite decide_True by lia.
    by replace (S (line (sel_end sel)) - line (sel_start sel)) with 0 by lia.
Qed.

Lemma selected_between sel cellCode (first last : jsstring) :
  let lines := split LF cellCode in
  let startLine := line (sel_start sel) in
  let endLine := line (sel_end sel) in
  lines !! startLine = Some first →
  lines !! endLine = Some last →
  (startLine < endLine →
     getSelectedCode (Some sel) cellCode =
     trimEnd
       (join [LF]
          (drop (column (sel_start sel)) first
             :: take (endLine - startLine - 1) (drop (S startLine) lines)
             ++ [take (column (sel_end sel)) last]))) ∧
  (startLine = endLine →
     column (sel_start sel) ≠ column (sel_end sel) →
     getSelectedCode (Some sel) cellCode =
     trimEnd
       (substring first (column (sel_start sel)) (column (sel_end sel)))).
Proof.
  intros lines startLine endLine Hfirst Hlast. unfold getSelectedCode.
  fold lines startLine endLine. split.
  - intros Hlt. rewrite decide_True by lia. f_equal.
    set (k := endLine - startLine - 1).
    assert (seq startLine (S endLine - startLine)
            = startLine :: seq (S startLine) k ++ [endLine]) as ->.
    { replace (S endLine - startLine) with (S k + 1) by (unfold k; lia).
      rewrite seq_app. simpl. do 3 f_equal. unfold k. lia. }
    assert (extract lines sel startLine
            = drop (column (sel_start sel)) first) as Hx.
    { unfold extract. cbv zeta. fold startLine endLine. rewrite Hfirst.
      rewrite decide_False by lia. rewrite decide_True by done.
      apply substringFrom_drop. }
    assert (extract lines sel endLine
            = [LF] ++ take (column (sel_end sel)) last) as Hy.
    { unfold extract. cbv zeta. fold startLine endLine. rewrite Hlast.
      rewrite decide_False by lia. rewrite decide_False by lia.
      rewrite decide_True by done. by rewrite substring_0. }
    assert (extract lines sel <$> seq (S startLine) k
            = (λ l, [LF] ++ l) <$> take k (drop (S startLine) lines)) as Hm.
    { apply (fmap_seq_lookup (A:=jsstring)).
      { apply lookup_lt_Some in Hlast. unfold k, jsstring in *. lia. }
      intros i x Hi Hx'. unfold k in Hi. unfold extract. cbv zeta. fold startLine endLine.
      rewrite Hx'. by rewrite !decide_False by lia. }
    rewrite join_cons, fmap_cons, !fmap_app.
    change (mjoin (?x :: ?l)) with (x ++ mjoin l).
    rewrite !join_app, Hx, Hm. csimpl. rewrite Hy. csimpl.
    unfold jsstring in *. rewrite join_app. csimpl. by rewrite ?app_nil_r.
  - intros Heq Hcol. rewrite decide_True by naive_solver.
    rewrite <-Heq. replace (S startLine - startLine) with 1 by lia.
    csimpl. rewrite app_nil_r. unfold extract. cbv zeta. fold startLine endLine.
    rewrite Hfirst. by rewrite decide_True by done.
Qed.


(** X12. A selection from a line to a later line of the cell yields the
    first line from the start column on, the lines between, and the
    last line up to the end column, joined by line feeds, without
    trailing white space; a selection within one line yields the
    [substring] between the two columns. *)
Theorem getSelectedCode_between sel cellCode (first last : jsstring) :
  let lines := split LF cellCode in
  let startLine := line (sel_start sel) in
  let endLine := line (sel_end sel) in
  lines !! startLine = Some first →
  lines !! endLine = Some last →
  (startLine < endLine →
     getSelectedCode (Some sel) cellCode =
     trimEnd
       (join [LF]
          (drop (column (sel_start sel)) first
             :: take (endLine - startLine - 1) (drop (S startLine) lines)
             ++ [take (column (sel_end sel)) last]))) ∧
  (startLine = endLine →
     column (sel_start sel) ≠ column (sel_end sel) →
     getSelectedCode (Some sel) cellCode =
     trimEnd
       (substring first (column (sel_start sel)) (column (sel_end sel)))).
Proof. apply selected_between. Qed.

(** X13. Selecting from the start of the first line to the end of the
    last line yields the code of the cell without its trailing white
    space. *)
Theorem getSelectedCode_select_all cellCode :
  let lines := split LF cellCode in
  getSelectedCode
    (Some {| sel_start := {| line := 0; column := 0 |};
             sel_end := {| line := length lines - 1;
                           column := length (default [] (last lines)) |} |})
    cellCode
  = trimEnd cellCode.
Proof.
  cbv zeta. pose proof (join_split LF cellCode) as Hjoin.
  pose proof (split_not_nil LF cellCode) as Hne.
  destruct (split LF cellCode) as [|first rest] eqn:Hlines; [done|].
  destruct (decide (rest = [])) as [->|Hrest].
  - simpl in Hjoin. subst first. destruct cellCode as [|c s].
    + reflexivity.
    + set (sel := {| sel_start := _ |}).
      destruct (selected_between sel (c :: s) (c :: s) (c :: s)) as [_ H];
        [by rewrite Hlines..|].
      rewrite H; [|done|simpl; lia].
      exact (f_equal trimEnd (substring_all (c :: s))).
  - destruct (exists_last Hrest) as (mid & final & ->).
    set (sel := {| sel_start := _ |}).
    assert (line (sel_end sel) = S (length mid)) as Hend.
    { simpl. rewrite length_app. simpl. lia. }
    assert (column (sel_end sel) = length final) as Hcol.
    { simpl. by rewrite last_cons, last_snoc. }
    destruct (selected_between sel cellCode first final) as [H _].
    { by rewrite Hlines. }
    { rewrite Hlines, Hend. simpl.
      by rewrite lookup_app_r, Nat.sub_diag by lia. }
    rewrite H by (rewrite Hend; simpl; lia).
    rewrite Hend, Hcol, Hlines.
    change (line (sel_start sel)) with 0.
    change (column (sel_start sel)) with 0.
    replace (S (length mid) - 0 - 1) with (length mid) by lia.
    change (drop 1 (first :: mid ++ [final])) with (mid ++ [final]).
    rewrite drop_0, take_app_length, (take_ge final) by done.
    exact (f_equal trimEnd Hjoin).
Qed.

Lemma getSelectedCode_nothing_witness :
  getSelectedCode
    (Some {| sel_start := {| line := 1; column := 2 |};
             sel_end := {| line := 0; column := 5 |} |})
    (js "a = 1" ++ [LF] ++ js "b = 2")
  = [].
Proof.
  refine (getSelectedCode_nothing
            (Some {| sel_start := {| line := 1; column := 2 |};
                     sel_end := {| line := 0; column := 5 |} |})
            (js "a = 1" ++ [LF] ++ js "b = 2") _).
  right. simpl. lia.
Defined.

Lemma getSelectedCode_between_witness :
  getSelectedCode
    (Some {| sel_start := {| line := 0; column := 4 |};
             sel_end := {| line := 1; column := 1 |} |})
    (js "a = 1" ++ [LF] ++ js "b = 2")
  = js "1" ++ [LF] ++ js "b".
Proof.
  refine (proj1 (getSelectedCode_between
                   {| sel_start := {| line := 0; column := 4 |};
                      sel_end := {| line := 1; column := 1 |} |}
                   (js "a = 1" ++ [LF] ++ js "b = 2")
                   (js "a = 1") (js "b = 2") _ _) _).
  - reflexivity.
  - reflexivity.
  - simpl. lia.
Defined.

End SelectionFacts.

(** ** Kernel variables and the processed request *)

Module VariablesFacts.
Import JsString JsStringFacts Variables.

Lemma foldl_hook_others v msgs :
  Forall (λ m, ¬ (msg_type m = js "stream" ∧ content_name m = js "stdout"))
    msgs →
  foldl hook v msgs = v.
Proof.
  intros H. revert v. induction H as [|m msgs Hm _ IH]; intros v; [done|].
  simpl. unfold hook at 2. rewrite decide_False by done. apply IH.
Qed.

(** X14. When the execute reply is ok, the value is the trimmed text of
    the last stdout stream message the hook saw, and nothing is
    logged. *)
Theorem getVariableValue_last_stdout requestExecute variableName pre m post :
  let executeRequest :=
    requestExecute (js "print(" ++ variableName ++ js ")") in
  done executeRequest = Fulfilled (js "ok") →
  messages executeRequest = pre ++ m :: post →
  msg_type m = js "stream" →
  content_name m = js "stdout" →
  Forall (λ m', ¬ (msg_type m' = js "stream" ∧ content_name m' = js "stdout"))
    post →
  getVariableValue (Some requestExecute) variableName
  = (Some (trim (content_text m)), []).
Proof.
  intros executeRequest Hdone Hmsgs Htype Hname Hpost.
  unfold getVariableValue. fold executeRequest.
  rewrite Hdone, Hmsgs, decide_True by done.
  rewrite foldl_app. simpl. rewrite foldl_hook_others by done.
  unfold hook. by rewrite decide_True.
Qed.

(** X15. A call logs nothing exactly when there is a kernel whose
    execute reply is ok; whenever it logs, it logs one line and the
    value is null. *)
Theorem getVariableValue_failure kernel variableName :
  let result := getVariableValue kernel variableName in
  (result.2 = [] ↔
   ∃ requestExecute,
     kernel = Some requestExecute
     ∧ done (requestExecute (js "print(" ++ variableName ++ js ")"))
       = Fulfilled (js "ok"))
  ∧ (result.2 ≠ [] → result.1 = None ∧ length result.2 = 1).
Proof.
  unfold getVariableValue. destruct kernel as [requestExecute|]; simpl.
  - destruct (done _) as [status|error] eqn:Hdone.
    + destruct (decide (status = js "ok")) as [->|Hne]; simpl.
      * split; [|done]. split; [|done]. intros _. by eexists.
      * split; [|done]. split; [done|].
        intros (k & [= <-] & Hk). rewrite Hdone in Hk. by injection Hk.
    + split; [|done]. split; [done|].
      intros (k & [= <-] & Hk). by rewrite Hdone in Hk.
  - split; [|done]. split; [done|]. by intros (k & ? & _).
Qed.

Lemma isWord_not_at c : isWord c = true → c ≠ 64%N.
Proof. by intros H ->. Qed.

Lemma word_app name post :
  Forall (λ c, isWord c = true) name →
  (∀ c, head post = Some c → isWord c = false) →
  word (name ++ post) = name.
Proof.
  intros Hname Hpost. induction Hname as [|c name Hc _ IH]; simpl.
  - destruct post as [|c post]; [done|]. simpl. by rewrite Hpost.
  - by rewrite Hc, IH.
Qed.

Lemma taggedVariables_plain pre s :
  Forall (λ c, c ≠ 64%N) pre →
  taggedVariables (pre ++ s) = taggedVariables s.
Proof.
  induction 1 as [|c pre Hc _ IH]; [done|]. simpl.
  apply N.eqb_neq in Hc. by rewrite Hc.
Qed.

Lemma taggedVariables_at s :
  taggedVariables (64%N :: s)
  = match word s with
    | [] => taggedVariables s
    | name => name :: taggedVariables s
    end.
Proof. done. Qed.

(** X16. The loop over the tags finds a name that follows the first
    ['@'], up to the first character that is no word character, and
    goes on behind it; a text without ['@'] holds no tag. *)
Theorem taggedVariables_finds pre name post :
  Forall (λ c, c ≠ 64%N) pre →
  (name ≠ [] →
   Forall (λ c, isWord c = true) name →
   (∀ c, head post = Some c → isWord c = false) →
   taggedVariables (pre ++ [64%N] ++ name ++ post)
   = name :: taggedVariables post)
  ∧ taggedVariables pre = [].
Proof.
  intros Hpre. split.
  - intros Hne Hname Hpost. rewrite taggedVariables_plain by done.
    change ([64%N] ++ name ++ post) with (64%N :: name ++ post).
    rewrite taggedVariables_at, word_app by done.
    destruct name as [|c name]; [done|]. f_equal.
    apply taggedVariables_plain.
    eapply Forall_impl; [done|]. apply isWord_not_at.
  - rewrite <-(app_nil_r pre). by rewrite taggedVariables_plain.
Qed.

Lemma foldl_append {A} (f : A → jsstring) init l :
  foldl (λ text x, text ++ f x) init l = init ++ mjoin (f <$> l).
Proof.
  revert init. induction l as [|x l IH]; intros init; simpl.
  - by rewrite app_nil_r.
  - by rewrite IH, <-app_assoc.
Qed.

(** X17. When the kernel yields no value, because there is none or
    because its requests fail, the request gets the imports and the
    word null for the variables, and nothing for any tagged
    variable. *)
Theorem processTaggedVariables_without_values kernel cells userInput :
  (∀ code, (getVariableValue kernel code).1 = None) →
  processTaggedVariables kernel cells userInput
  = userInput
    ++ js "The following imports are already present in the notebook:"
    ++ [LF] ++ importsCode cells ++ [LF]
    ++ js "The following variables exist in memory of the notebook kernel:"
    ++ [LF] ++ js "null" ++ [LF].
Proof.
  intros Hnone. unfold processTaggedVariables. rewrite foldl_append.
  rewrite Hnone.
  assert (mjoin (describe kernel <$> taggedVariables userInput) = [])
    as ->.
  { induction (taggedVariables userInput) as [|x l IH]; [done|].
    csimpl. rewrite IH. unfold describe. by rewrite Hnone. }
  rewrite app_nil_r. unfold interpolate. simpl default.
  by rewrite <-!app_assoc.
Qed.

(** X18. The processed request starts with the text the user typed,
    tags included; for a text without ['@'] it is that text, the
    imports and the variables the kernel lists. *)
Theorem processTaggedVariables_keeps_the_input kernel cells userInput :
  userInput `prefix_of` processTaggedVariables kernel cells userInput
  ∧ (Forall (λ c, c ≠ 64%N) userInput →
     processTaggedVariables kernel cells userInput
     = userInput
       ++ js "The following imports are already present in the notebook:"
       ++ [LF] ++ importsCode cells ++ [LF]
       ++ js "The following variables exist in memory of the notebook kernel:"
       ++ [LF] ++ interpolate (getVariableValue kernel getVarsCode).1
       ++ [LF]).
Proof.
  unfold processTaggedVariables. rewrite foldl_append. split.
  - rewrite <-!app_assoc. by apply prefix_app_r.
  - intros Hplain.
    assert (taggedVariables userInput = []) as ->.
    { rewrite <-(app_nil_r userInput). by rewrite taggedVariables_plain. }
    change (mjoin (describe kernel <$> [])) with (@nil N).
    rewrite app_nil_r. by rewrite <-!app_assoc.
Qed.

Lemma trimStart_suffix s : ∃ ws, s = ws ++ trimStart s.
Proof.
  induction s as [|c s [ws IH]]; [by exists []|]. simpl.
  destruct (isWhiteSpace c); [|by exists []].
  exists (c :: ws). simpl. by f_equal.
Qed.

Lemma trimEnd_prefix s : ∃ ws, s = trimEnd s ++ ws.
Proof.
  unfold trimEnd. destruct (trimStart_suffix (reverse s)) as [ws Hws].
  exists (reverse ws). rewrite <-reverse_app, <-Hws.
  by rewrite reverse_involutive.
Qed.

Lemma trimStart_keeps a c pat b :
  isWhiteSpace c = false →
  ∃ a', trimStart (a ++ (c :: pat) ++ b) = a' ++ (c :: pat) ++ b.
Proof.
  intros Hc. induction a as [|x a [a' IH]]; simpl.
  - exists []. by rewrite Hc.
  - destruct (isWhiteSpace x); [by exists a'|by exists (x :: a)].
Qed.

Lemma trimEnd_keeps a pat c b :
  isWhiteSpace c = false →
  ∃ b', trimEnd (a ++ (pat ++ [c]) ++ b) = a ++ (pat ++ [c]) ++ b'.
Proof.
  intros Hc. unfold trimEnd.
  rewrite !reverse_app, <-!app_assoc. simpl.
  destruct (trimStart_keeps (reverse b) c (reverse pat) (reverse a) Hc)
    as [b' Hb].
  simpl in Hb. rewrite Hb.
  exists (reverse b').
  rewrite reverse_app, reverse_cons, reverse_app, !reverse_involutive.
  by rewrite <-!app_assoc.
Qed.

Lemma includes_trim pat line :
  (∀ c, head pat = Some c → isWhiteSpace c = false) →
  (∀ c, last pat = Some c → isWhiteSpace c = false) →
  pat ≠ [] →
  includes pat (trim line) = includes pat line.
Proof.
  intros Hhead Hlast Hne. apply Bool.eq_iff_eq_true.
  rewrite !includes_true. unfold trim. split.
  - intros (a & b & Hab).
    destruct (trimStart_suffix line) as [ws Hws].
    destruct (trimEnd_prefix (trimStart line)) as [ws' Hws'].
    exists (ws ++ a), (b ++ ws').
    rewrite Hws, Hws', Hab at 1. by rewrite <-!app_assoc.
  - intros (a & b & ->).
    destruct pat as [|c pat]; [done|].
    destruct (trimStart_keeps a c pat b) as [a' ->]; [by apply Hhead|].
    destruct (exists_last (l:=c :: pat)) as (pat' & c' & Hpat); [done|].
    rewrite Hpat.
    destruct (trimEnd_keeps a' pat' c' b) as [b' ->]; [|by eauto].
    apply Hlast. by rewrite Hpat, last_snoc.
Qed.

Lemma join_append sep (l1 l2 : list jsstring) :
  l1 ≠ [] → l2 ≠ [] →
  join sep (l1 ++ l2) = join sep l1 ++ sep ++ join sep l2.
Proof.
  intros H1 H2. induction l1 as [|x l1 IH]; [done|].
  destruct l1 as [|y l1].
  - destruct l2 as [|z l2]; [done|]. done.
  - change (join sep ((x :: y :: l1) ++ l2))
      with (x ++ sep ++ join sep ((y :: l1) ++ l2)).
    rewrite IH by done.
    change (join sep (x :: y :: l1)) with (x ++ sep ++ join sep (y :: l1)).
    by rewrite <-!app_assoc.
Qed.

Lemma join_join sep (ls : list (list jsstring)) :
  Forall (λ l, l ≠ []) ls →
  join sep (join sep <$> ls) = join sep (concat ls).
Proof.
  induction 1 as [|l ls Hl Hls IH]; [done|].
  destruct ls as [|l' ls].
  - simpl. by rewrite app_nil_r.
  - change (join sep (join sep <$> l :: l' :: ls))
      with (join sep l ++ sep ++ join sep (join sep <$> l' :: ls)).
    rewrite IH. change (concat (l :: l' :: ls)) with (l ++ concat (l' :: ls)).
    rewrite join_append; [done|done|].
    apply Forall_cons_1 in Hls as [Hl' _]. by destruct l'.
Qed.

(** X19. The imports the request quotes are all the lines of the
    notebook that include the word import, in document order, one per
    line: trimming a line does not change whether it includes the
    word, so every cell that is picked gives at least a line. *)
Theorem importsCode_lines cells :
  importsCode cells
  = join [LF]
      (filter (λ line, includes (js "import") line)
         (cells ≫= λ cell, split LF (cell_source cell))).
Proof.
  unfold importsCode. cbv zeta.
  assert (∀ line,
    includes (js "import") (trim line) = includes (js "import") line)
    as Htrim.
  { intros line. apply includes_trim; [|by intros c [= <-]|done].
    by intros c [= <-]. }
  set (P := λ line : jsstring, Is_true (includes (js "import") line)).
  assert (∀ l : list jsstring,
    filter (λ line, includes (js "import") (trim line)) l = filter P l)
    as Hfilter.
  { intros l. apply list_filter_iff. intros line. unfold P.
    by rewrite Htrim. }
  rewrite (list_fmap_ext _
    (join [LF] ∘ (λ cell, filter P (split LF (cell_source cell)))));
    [|intros _ cell _; simpl; by rewrite Hfilter].
  rewrite list_fmap_compose.
  rewrite join_join.
  - f_equal. induction cells as [|cell cells IH]; [done|].
    rewrite filter_cons. csimpl. rewrite filter_app, <-IH.
    destruct (decide _) as [Hex|Hex]; [done|].
    assert (filter P (split LF (cell_source cell)) = []) as ->; [|done].
    apply Forall_Exists_neg in Hex.
    induction Hex as [|x l Hx _ IHl]; [done|].
    rewrite filter_cons. by rewrite decide_False.
  - apply Forall_fmap, Forall_forall. intros cell [Hex _]%list_elem_of_filter.
    simpl. apply Exists_exists in Hex as (line & Hin & Hline).
    intros Hnil. assert (line ∈ filter P (split LF (cell_source cell))) as H.
    { by apply list_elem_of_filter. }
    rewrite Hnil in H. by apply elem_of_nil in H.
Qed.

Lemma getVariableValue_last_stdout_witness :
  getVariableValue
    (Some (λ _, {| messages :=
                     [{| msg_type := js "stream"; content_name := js "stdout";
                         content_text := js " 1 " |};
                      {| msg_type := js "stream"; content_name := js "stderr";
                         content_text := js "warning" |}];
                   done := Fulfilled (js "ok") |}))
    (js "x")
  = (Some (js "1"), []).
Proof.
  refine (getVariableValue_last_stdout _ (js "x") []
            {| msg_type := js "stream"; content_name := js "stdout";
               content_text := js " 1 " |}
            [{| msg_type := js "stream"; content_name := js "stderr";
                content_text := js "warning" |}] _ _ _ _ _).
  - reflexivity.
  - reflexivity.
  - reflexivity.
  - reflexivity.
  - apply (bool_decide_unpack _). vm_compute. exact I.
Defined.

Lemma getVariableValue_failure_witness :
  (getVariableValue None (js "x")).1 = None.
Proof.
  refine (proj1 (proj2 (getVariableValue_failure None (js "x")) _)).
  discriminate.
Defined.

Lemma taggedVariables_finds_witness :
  taggedVariables (js "plot " ++ [64%N] ++ js "df" ++ js " now")
  = [js "df"].
Proof.
  refine (proj1 (taggedVariables_finds (js "plot ") (js "df") (js " now") _)
            _ _ _).
  - apply (bool_decide_unpack _). vm_compute. exact I.
  - discriminate.
  - repeat constructor.
  - intros c Hc. injection Hc as <-. reflexivity.
Defined.

Lemma processTaggedVariables_without_values_witness :
  processTaggedVariables None [] (js "sum @x")
  = js "sum @x"
    ++ js "The following imports are already present in the notebook:"
    ++ [LF] ++ importsCode [] ++ [LF]
    ++ js "The following variables exist in memory of the notebook kernel:"
    ++ [LF] ++ js "null" ++ [LF].
Proof.
  refine (processTaggedVariables_without_values None [] (js "sum @x") _).
  intros code. reflexivity.
Defined.

Lemma processTaggedVariables_keeps_the_input_witness :
  processTaggedVariables None [] (js "sum x")
  = js "sum x"
    ++ js "The following imports are already present in the notebook:"
    ++ [LF] ++ importsCode [] ++ [LF]
    ++ js "The following variables exist in memory of the notebook kernel:"
    ++ [LF] ++ interpolate (getVariableValue None getVarsCode).1
    ++ [LF].
Proof.
  refine (proj2 (processTaggedVariables_keeps_the_input None []
                   (js "sum x")) _).
  apply (bool_decide_unpack _). vm_compute. exact I.
Defined.

End VariablesFacts.

(** ** Settings *)

Module SettingsFacts.
Import JsString Settings.



(** X21. With the service setting missing or empty, the Pretzel server
    becomes the service. When the second registry load answers too, no
    client is left and a Submit button in the document is enabled on a
    change of the settings; when it rejects, the client and the button
    stay as they were and the failure is logged. *)
Theorem loadSettings_default_service withUpdateFunc registry composite s :
  plugin registry = Fulfilled composite →
  c_aiService composite = None ∨ c_aiService composite = Some [] →
  let s' := loadSettings withUpdateFunc registry s in
  aiService (vars s') = js "Use Pretzel AI Server" ∧
  match notification registry with
  | Fulfilled _ =>
      aiClient (vars s') = None ∧ console s' = console s ∧
      (withUpdateFunc = true → is_Some (submitDisabled s) →
       submitDisabled s' = Some false)
  | Rejected reason =>
      aiClient (vars s') = aiClient (vars s) ∧
      submitDisabled s' = submitDisabled s ∧
      console s' =
        console s ++ [js "Failed to load settings for Pretzel" ++ reason]
  end.
Proof.
  intros Hplugin Hservice. unfold loadSettings. rewrite Hplugin.
  assert (aiService (assign composite (vars s))
          = js "Use Pretzel AI Server") as Hdefault.
  { unfold assign. simpl. by destruct Hservice as [-> | ->]. }
  destruct (notification registry) as [consent|reason]; [|done].
  assert (∀ s0 : State,
    aiService (vars s0) = js "Use Pretzel AI Server" →
    aiService (loadAIClient (vars s0)) = js "Use Pretzel AI Server"
    ∧ aiClient (loadAIClient (vars s0)) = None) as Hclient.
  { intros s0 Hs0. unfold loadAIClient. simpl. by rewrite Hs0. }
  destruct withUpdateFunc; cbv zeta.
  - unfold updateFunc. cbn [submitDisabled vars console].
    destruct (submitDisabled s) as [d|] eqn:Hd; cbn [submitDisabled vars console].
    + destruct (Hclient {| vars := assign composite (vars s);
                           submitDisabled := Some d;
                           console := console s |} Hdefault) as [H1 H2].
      split_and!; [exact H1|exact H2|done|]. intros _ _.
      unfold submitEnabled. rewrite Hdefault.
      by rewrite (bool_decide_eq_true_2 (_ = _)), orb_true_r by done.
    + destruct (Hclient {| vars := assign composite (vars s);
                           submitDisabled := None;
                           console := console s |} Hdefault) as [H1 H2].
      split_and!; [exact H1|exact H2|done|]. by intros _ [? ?].
  - destruct (Hclient {| vars := assign composite (vars s);
                         submitDisabled := submitDisabled s;
                         console := console s |} Hdefault) as [H1 H2].
    split_and!; [exact H1|exact H2|done|done].
Qed.


Lemma loadSettings_default_service_witness :
  aiService
    (vars
       (loadSettings true
          {| plugin :=
               Fulfilled
                 {| c_openAiApiKey := Some (js "sk-1");
                    c_openAiBaseUrl := None; c_azureBaseUrl := None;
                    c_azureDeploymentName := None; c_azureApiKey := None;
                    c_aiService := Some [] |};
             notification := Rejected (js "offline") |}
          {| vars := {| openAiApiKey := []; openAiBaseUrl := [];
                        aiService := []; azureBaseUrl := [];
                        azureDeploymentName := []; azureApiKey := [];
                        aiClient := Some (OpenAI (js "sk-0")) |};
             submitDisabled := Some false; console := [] |}))
  = js "Use Pretzel AI Server".
Proof.
  refine (proj1 (loadSettings_default_service true _ _ _ _ _)).
  - reflexivity.
  - right. reflexivity.
Defined.

End SettingsFacts.

(** ** Buttons *)

Module ButtonsFacts.
Import Controller Buttons.

Lemma askAI_handle b e :
  fst <$> askAI (handle b e)
  = match e with
    | CellActivated (Some (cellNode, true)) =>
        tail (fst <$> askAI b) ++ [cellNode]
    | _ => fst <$> askAI b
    end.
Proof.
  destruct e as [[[cellNode []]|]|cell outs|cellNode]; simpl; try done.
  - rewrite fmap_app. by destruct (askAI b).
  - unfold outputsChanged. by destruct (findErrorOutput outs).
Qed.

(** X22. The page holds an Ask AI button only under the code cell that
    became active last, and none before a code cell became active. *)
Theorem ask_ai_button_follows_the_active_cell events :
  fst <$> askAI (buttonsAfter events)
  = option_list
      (last
         (omap (λ e, match e with
                     | CellActivated (Some (cellNode, true)) => Some cellNode
                     | _ => None
                     end) events)).
Proof.
  unfold buttonsAfter.
  induction events as [|e events IH] using rev_ind; [done|].
  rewrite foldl_app. simpl. rewrite askAI_handle, IH, omap_app.
  destruct e as [[[cellNode []]|]|cell outs|cellNode]; simpl;
    rewrite ?app_nil_r; try done.
  rewrite last_snoc. simpl. by destruct (last _).
Qed.

Lemma fixError_handle b e node :
  length (default [] (fixError b !! node)) ≤ 1 →
  length (default [] (fixError (handle b e) !! node)) ≤ 1.
Proof.
  intros Hone.
  assert (∀ cell,
    length (default [] (fixError (addFixErrorButton b cell) !! node)) ≤ 1)
    as Hadd.
  { intros cell. simpl. destruct (decide (cell = node)) as [->|Hne].
    - rewrite lookup_insert_eq. simpl. rewrite length_app.
      destruct (default [] (fixError b !! node)) as [|k [|k' l]];
        simpl in *; lia.
    - by rewrite lookup_insert_ne. }
  destruct e as [[[cellNode []]|]|cell outs|cellNode]; simpl; try done.
  - unfold outputsChanged. by destruct (findErrorOutput outs).
  - destruct (decide (cellNode = node)) as [->|Hne].
    + rewrite lookup_insert_eq. simpl.
      destruct (default [] (fixError b !! node)) as [|k [|k' l]];
        simpl in *; lia.
    + by rewrite lookup_insert_ne.
Qed.

(** X23. An output node never holds more than one fix-error button,
    however often its outputs change, and after a click on the button
    it holds none. *)
Theorem one_fix_error_button_per_node events node :
  length (default [] (fixError (buttonsAfter events) !! node)) ≤ 1
  ∧ default []
      (fixError (buttonsAfter (events ++ [FixErrorClick node])) !! node)
    = [].
Proof.
  assert (length (default [] (fixError (buttonsAfter events) !! node)) ≤ 1)
    as Hone.
  { unfold buttonsAfter.
    induction events as [|e events IH] using rev_ind.
    - simpl. rewrite lookup_empty. simpl. lia.
    - rewrite foldl_app. simpl. by apply fixError_handle. }
  split; [done|]. unfold buttonsAfter in *. rewrite foldl_app. simpl.
  rewrite lookup_insert_eq. simpl.
  by destruct (default [] _) as [|k [|k' l]]; [..|simpl in Hone; lia].
Qed.

End ButtonsFacts.

(** ** Closing a session *)

Module SessionFacts.
Import Controller ControllerFacts Scenarios.

Lemma removeStatusElements_nil l :
  containerKeys l = [] → removeStatusElements l = [].
Proof.
  unfold containerKeys, removeStatusElements.
  induction l as [|[k t|k i d] l IH]; [done|..];
    rewrite !filter_cons; simpl; repeat case_decide; naive_solver.
Qed.

Lemma execute_closes st cell k :
  activeCell st = Some cell →
  containers st cell = [k] →
  execute st =
    emit (set_children st cell [])
      [Capture (js "Remove via Cmd K"); Focus cell].
Proof.
  intros Hactive Hk.
  destruct (list_find (λ e, isParentContainer e) (children st cell))
    as [[i existingDiv]|] eqn:Hfind.
  - rewrite (execute_found _ _ _ _ Hactive Hfind). do 3 f_equal.
    apply removeStatusElements_nil.
    pose proof (containerKeys_existing _ _ _ Hfind) as Hkeys.
    unfold containers in Hk. rewrite Hk in Hkeys. by injection Hkeys.
  - apply containers_nil_find in Hfind. by rewrite Hfind in Hk.
Qed.

Lemma attached_container k l : k ∈ containerKeys l → attached k l = true.
Proof.
  unfold containerKeys, attached.
  intros (e & -> & [He Hin]%list_elem_of_filter)%list_elem_of_fmap.
  apply bool_decide_eq_true, Exists_exists. by exists e.
Qed.

Lemma filter_agree {A} (P Q : A → Prop)
    `{!∀ x, Decision (P x)} `{!∀ x, Decision (Q x)} (l : list A) :
  (∀ x, x ∈ l → P x ↔ Q x) → filter P l = filter Q l.
Proof.
  induction l as [|x l IH]; intros Hl; [done|].
  rewrite !filter_cons.
  rewrite IH by (intros y Hy; apply Hl; by right).
  pose proof (Hl x (list_elem_of_here _ _)).
  repeat case_decide; naive_solver.
Qed.

(** X24. Cmd K on a cell without a session and Cmd K again leave
    neither a session container nor a status line under the cell, also
    no status line that an earlier session left there; the containers
    and status lines of the other cells are as they were, and no stream
    was started. *)
Theorem cmd_k_twice_removes_the_session st cell :
  activeCell st = Some cell →
  containers st cell = [] →
  let st' := execute (execute st) in
  (containers st' cell = []
   ∧ filter (λ e, isStatusElement e) (children st' cell) = [])
  ∧ (∀ cell', cell' ≠ cell → children st' cell' = children st cell')
  ∧ effects st'
    = effects st ++ [Capture (js "Remove via Cmd K"); Focus cell].
Proof.
  intros Hactive Hnone st'.
  assert (activeCell (execute st) = Some cell) as Hactive'.
  { apply containers_nil_find in Hnone.
    by rewrite (execute_none _ _ Hactive Hnone). }
  assert (containers (execute st) cell = [S (created st)]) as Hone.
  { rewrite containers_execute, Hactive, decide_True by done.
    by rewrite Hnone. }
  unfold st'. rewrite (execute_closes _ _ _ Hactive' Hone).
  unfold containers.
  rewrite children_emit, children_set_children, decide_True by done.
  split; [done|]. split.
  - intros cell' Hne.
    rewrite children_emit, children_set_children, decide_False by done.
    apply containers_nil_find in Hnone.
    rewrite (execute_none _ _ Hactive Hnone).
    rewrite children_set_created, children_set_children.
    by rewrite decide_False.
  - simpl. apply containers_nil_find in Hnone.
    by rewrite (execute_none _ _ Hactive Hnone).
Qed.

(** X25. On a cell with one session, the Remove button does to the
    page what Cmd K does: the container and every status line leave
    the cell; only the captured event differs. *)
Theorem remove_click_is_the_toggle st cell k :
  activeCell st = Some cell →
  containers st cell = [k] →
  nodes (removeHandler st cell k) = nodes (execute st)
  ∧ children (execute st) cell = []
  ∧ effects (removeHandler st cell k)
    = effects st ++ [Capture (js "Remove via Click"); Focus cell]
  ∧ effects (execute st)
    = effects st ++ [Capture (js "Remove via Cmd K"); Focus cell].
Proof.
  intros Hactive Hk. rewrite (execute_closes _ _ _ Hactive Hk).
  unfold removeHandler. rewrite children_emit.
  rewrite attached_container
    by (fold (containers st cell); rewrite Hk; apply list_elem_of_here).
  assert (removeStatusElements (removeChild k (children st cell)) = [])
    as ->.
  { apply removeStatusElements_nil. rewrite containerKeys_removeChild.
    fold (containers st cell). rewrite Hk, filter_cons.
    by rewrite decide_False by naive_solver. }
  split; [done|]. split.
  - by rewrite children_emit, children_set_children, decide_True.
  - split; [|done]. simpl. by rewrite <-app_assoc.
Qed.

(** X26. When the session was removed while [handleSubmit] awaited the
    similar cells, the fulfilled retrieval still hands the removed
    container to [openAiStream]; the cell gets no container back and
    no session in progress. *)
Theorem submit_resumes_on_a_removed_container st top cell k old input sel :
  k ∉ containers st cell →
  let st' := handleSubmit_resume st (Fulfilled top) cell k old input sel in
  k ∈ streams (effects st')
  ∧ containers st' cell = containers st cell
  ∧ activeSessions st' cell = activeSessions st cell.
Proof.
  intros Hk st'. unfold st', handleSubmit_resume.
  assert (containers
            (emit
               (set_children (emit st [Capture (js "prompt")]) cell
                  (set_diffEditor k [] <$>
                   children (emit st [Capture (js "prompt")]) cell))
               [OpenAiStream k
                  {| p_userInput := input; p_oldCode := old;
                     p_topSimilarities := top; p_selectedCode := sel;
                     p_traceback := None |}]) cell
          = containers st cell) as Hsame.
  { unfold containers.
    rewrite children_emit, children_set_children, decide_True by done.
    rewrite children_emit.
    by rewrite containerKeys_fmap by apply set_diffEditor_shape. }
  split; [|split; [done|]].
  - simpl. unfold streams. rewrite !omap_app. simpl.
    rewrite !elem_of_app. right. apply list_elem_of_here.
  - unfold activeSessions. rewrite Hsame. apply filter_agree.
    intros k' Hk'. simpl. unfold streams. rewrite !omap_app. simpl.
    rewrite app_nil_r, elem_of_app, list_elem_of_singleton.
    split; [|by left]. intros [?|Heq]; [done|]. by subst k'.
Qed.

(** X27. A click on Submit with an empty input captures the click,
    takes the input box out of the container and sets the status line,
    and nothing more: no prompt is captured, no stream is started, and
    the container stays under the cell without its input box. *)
Theorem empty_submit_leaves_an_empty_container
    st retrieval cell k s old processed sel :
  ParentContainer k true None ∈ children st cell →
  let st' := submitClick st retrieval cell k s old [] processed sel in
  effects st' = effects st ++ [Capture (js "Submit via Click")]
  ∧ streams (effects st') = streams (effects st)
  ∧ containers st' cell = containers st cell
  ∧ ParentContainer k false None ∈ children st' cell
  ∧ (∀ text, StatusElement s text ∈ children st cell →
       StatusElement s (js "Calculating embeddings...")
         ∈ children st' cell).
Proof.
  intros Hin st'. unfold st', submitClick, handleSubmit.
  rewrite children_emit, bool_decide_eq_true_2 by done.
  rewrite decide_False by naive_solver.
  unfold handleSubmit_begin.
  rewrite children_emit, bool_decide_eq_true_2 by done.
  split; [done|]. split.
  { cbn [effects set_children emit]. unfold streams.
    rewrite omap_app. cbn [omap]. by rewrite app_nil_r. }
  split.
  { unfold containers.
    rewrite children_set_children, decide_True by done.
    rewrite containerKeys_fmap by apply set_textContent_shape.
    apply containerKeys_fmap, remove_inputContainer_shape. }
  rewrite children_set_children, decide_True by done.
  split.
  - apply list_elem_of_fmap.
    exists (ParentContainer k false None). split; [done|].
    apply list_elem_of_fmap.
    exists (ParentContainer k true None). split; [|done].
    simpl. by rewrite decide_True.
  - intros text Htext. apply list_elem_of_fmap.
    exists (StatusElement s text). split.
    + simpl. by rewrite decide_True.
    + apply list_elem_of_fmap. by exists (StatusElement s text).
Qed.

Lemma cmd_k_twice_removes_the_session_witness :
  containers
    (execute (execute (after [ActiveCellChanged (Some (js "cell-1"))])))
    (js "cell-1")
  = [].
Proof.
  refine (proj1 (proj1 (cmd_k_twice_removes_the_session
                          (after [ActiveCellChanged (Some (js "cell-1"))])
                          (js "cell-1") _ _))).
  - reflexivity.
  - vm_compute. reflexivity.
Defined.

Lemma remove_click_is_the_toggle_witness :
  nodes (removeHandler (after opened) (js "cell-1") 1)
  = nodes (execute (after opened)).
Proof.
  refine (proj1 (remove_click_is_the_toggle (after opened) (js "cell-1") 1
                   _ _)).
  - reflexivity.
  - vm_compute. reflexivity.
Defined.

Lemma submit_resumes_on_a_removed_container_witness :
  1 ∈ streams
        (effects
           (handleSubmit_resume
              (after (opened ++ [SubmitBegin (js "cell-1") 1 0; Execute]))
              (Fulfilled []) (js "cell-1") 1 (js "x = y") (js "define y")
              [])).
Proof.
  refine (proj1 (submit_resumes_on_a_removed_container
                   (after (opened ++ [SubmitBegin (js "cell-1") 1 0; Execute]))
                   [] (js "cell-1") 1 (js "x = y") (js "define y") [] _)).
  apply (bool_decide_unpack _). vm_compute. exact I.
Defined.

Lemma empty_submit_leaves_an_empty_container_witness :
  effects
    (submitClick (after opened) (Fulfilled []) (js "cell-1") 1 0
       (js "x = y") [] [] [])
  = effects (after opened) ++ [Capture (js "Submit via Click")].
Proof.
  refine (proj1 (empty_submit_leaves_an_empty_container (after opened)
                   (Fulfilled []) (js "cell-1") 1 0 (js "x = y") [] [] _)).
  apply (bool_decide_unpack _). vm_compute. exact I.
Defined.

End SessionFacts.
